(** * InfiniteImages: the local storage backend, the converter's description
    step and the handlers that drive them

    A shallow embedding of
      - internal/storage/storage.go  (ImageInfo, formats, orientations, errors)
      - internal/storage/local.go    (LocalStorage and its nine methods)
      - pkg/converter                (GetImageInfo)
      - internal/api                 (UploadHandler's save sequence,
                                      UpdateTagsHandler)

    Modelling decisions, all visible in the definitions below:
      - a path is the list of its components, so [filepath.Join] is list
        concatenation; components are taken to be plain names (no separator,
        no [..]), which is what the layout of the backend produces;
      - the file system is a finite map from paths to file contents, a set of
        directories and a set of paths on which the operating system refuses
        to create, write or remove (permission errors);
      - a metadata file that holds a JSON object is represented by the
        members of that object ([Json]), its strings being the bytes that
        stand in the text; any other content is [Blob].  [json.MarshalIndent]
        and [json.Unmarshal] are functions between records and objects:
        both replace every byte of a string that is not part of well-formed
        UTF-8 by U+FFFD, and marshalling fails on a time outside the years
        0 to 9999 (the year is taken in UTC);
      - a [time.Time] is the number of nanoseconds since the zero time
        (January 1, year 1, 00:00 UTC), so [IsZero] is a test against 0;
      - every call of [time.Now] is an explicit argument of the function
        that makes it;
      - an [io.Reader] is the list of bytes it delivers. *)

From Stdlib Require Import ZArith Strings.Ascii Strings.Byte.
From stdpp Require Import gmap strings list fin_maps pretty.


(** ** Strings: the functions of [strings] and [path/filepath] that the
    backend calls *)

Module Str.

(** [s[n:]] *)
Fixpoint from (n : nat) (s : string) : string :=
  match n, s with
  | O, _ => s
  | S _, EmptyString => EmptyString
  | S m, String _ r => from m r
  end.

(** [s[:n]] *)
Fixpoint upto (n : nat) (s : string) : string :=
  match n, s with
  | O, _ => EmptyString
  | S _, EmptyString => EmptyString
  | S m, String c r => String c (upto m r)
  end.

(** strings.HasPrefix *)
Definition HasPrefix (s pre : string) : bool :=
  (String.length pre <=? String.length s)%nat
  && String.eqb (upto (String.length pre) s) pre.

(** strings.HasSuffix *)
Definition HasSuffix (s suffix : string) : bool :=
  (String.length suffix <=? String.length s)%nat
  && String.eqb (from (String.length s - String.length suffix) s) suffix.

(** strings.TrimSuffix *)
Definition TrimSuffix (s suffix : string) : string :=
  if HasSuffix s suffix
  then upto (String.length s - String.length suffix) s
  else s.

(** One byte of strings.ToLower: the letters A-Z are mapped to a-z, every
    other byte is kept. *)
Definition lower_ascii (c : ascii) : ascii :=
  let n := nat_of_ascii c in
  if ((65 <=? n) && (n <=? 90))%nat then ascii_of_nat (n + 32) else c.

(** strings.ToLower *)
Fixpoint ToLower (s : string) : string :=
  match s with
  | EmptyString => EmptyString
  | String c r => String (lower_ascii c) (ToLower r)
  end.

(** os.IsPathSeparator *)
Definition IsPathSeparator (c : ascii) : bool := Ascii.eqb c "/".

(** The loop of filepath.Ext: [i] runs from [len(path)-1] downwards and
    stops at a separator; [scan path n] is the loop entered with
    [i = n - 1]. *)
Fixpoint Ext_scan (path : string) (n : nat) : string :=
  match n with
  | O => ""
  | S i =>
      match String.get i path with
      | Some c =>
          if IsPathSeparator c then ""
          else if Ascii.eqb c "." then from i path
          else Ext_scan path i
      | None => ""
      end
  end.

(** filepath.Ext *)
Definition Ext (path : string) : string := Ext_scan path (String.length path).

(** Does the string hold a dot? *)
Fixpoint has_dot (s : string) : bool :=
  match s with
  | EmptyString => false
  | String c r => Ascii.eqb c "." || has_dot r
  end.

(** strings.Join(elems, sep) *)
Fixpoint Join (elems : list string) (sep : string) : string :=
  match elems with
  | [] => ""
  | [e] => e
  | e :: rest => e +:+ sep +:+ Join rest sep
  end.

End Str.

(** ** storage.go *)

(** time.Time, as nanoseconds since the zero time. *)
Definition Time := Z.

Definition IsZero (t : Time) : bool := (t =? 0)%Z.
Definition Before (t u : Time) : bool := (t <? u)%Z.

(** Two's-complement wrap-around of a 64-bit signed integer. *)
Definition wrap64 (z : Z) : Z := ((z + 2 ^ 63) mod 2 ^ 64 - 2 ^ 63)%Z.

(** Seconds from the zero time to January 1, 1970 ([unixToInternal]). *)
Definition unixToInternal : Z := 62135596800.

(** Time.UnixNano *)
Definition UnixNano (t : Time) : Z := wrap64 (t - unixToInternal * 1000000000).

Record ImageInfo := mkImageInfo {
  ID : string;
  Filename : string;
  StoragePath : string;
  Size : Z;
  Width : Z;
  Height : Z;
  Format : string;
  Orientation : string;
  Tags : list string;
  CreatedAt : Time;
  ExpiresAt : Time;
  HasExpiry : bool
}.

Definition ImageFormat := string.
Definition Original : ImageFormat := "original".
Definition WebP : ImageFormat := "webp".
Definition AVIF : ImageFormat := "avif".

Definition ImageOrientation := string.
Definition Landscape : ImageOrientation := "landscape".
Definition Portrait : ImageOrientation := "portrait".

(** The errors of the backend.  [ErrFileNotFound] is the sentinel of
    storage.go; the others are the wrapped errors built with [fmt.Errorf],
    one per call site. *)
Inductive error :=
  | ErrFileNotFound
  | ErrMkdir
  | ErrCreate
  | ErrRemove
  | ErrOpen
  | ErrReadMetadata
  | ErrParseMetadata
  | ErrMarshalMetadata
  | ErrWriteMetadata
  | ErrRemoveMetadata
  | ErrReadDir.

Inductive result (A : Type) :=
  | Ok (a : A)
  | Err (e : error).
Arguments Ok {A} a.
Arguments Err {A} e.

(** ** encoding/json, as far as a metadata record meets it *)

Module json.

(** The JSON object of a metadata file: its members, by their keys.  A
    string member holds the bytes of the string in the text; a time member
    holds the instant that its RFC 3339 text denotes. *)
Record Object := mkObject {
  k_id : string;
  k_filename : string;
  k_storagePath : string;
  k_size : Z;
  k_width : Z;
  k_height : Z;
  k_format : string;
  k_orientation : string;
  k_tags : list string;
  k_createdAt : Time;
  k_expiresAt : Time;
  k_hasExpiry : bool
}.

Definition byte_in (lo hi : N) (c : ascii) : bool :=
  ((lo <=? N_of_ascii c) && (N_of_ascii c <=? hi))%N.

(** utf8.DecodeRuneInString on the byte [c] followed by [r]: the size of
    the well-formed sequence that starts with [c], and [0] when there is
    none (the function then returns RuneError with size 1). *)
Definition rune_size (c : ascii) (r : string) : nat :=
  let b := N_of_ascii c in
  if (b <? 128)%N then 1
  else if (b <? 194)%N then 0
  else if (b <? 224)%N then
    match r with
    | String c1 _ => if byte_in 128 191 c1 then 2 else 0
    | _ => 0
    end
  else if (b <? 240)%N then
    match r with
    | String c1 (String c2 _) =>
        if byte_in (if (b =? 224)%N then 160 else 128)
                   (if (b =? 237)%N then 159 else 191) c1
           && byte_in 128 191 c2
        then 3 else 0
    | _ => 0
    end
  else if (b <? 245)%N then
    match r with
    | String c1 (String c2 (String c3 _)) =>
        if byte_in (if (b =? 240)%N then 144 else 128)
                   (if (b =? 244)%N then 143 else 191) c1
           && byte_in 128 191 c2 && byte_in 128 191 c3
        then 4 else 0
    | _ => 0
    end
  else 0.

(** U+FFFD in UTF-8. *)
Definition replacement : string :=
  String (ascii_of_N 239) (String (ascii_of_N 191)
    (String (ascii_of_N 189) EmptyString)).

(** The loop over the bytes of a string, in the encoder and in the
    decoder: a well-formed sequence is copied ([skip] counts the bytes of
    it that are still to copy), any other byte becomes U+FFFD. *)
Fixpoint utf8_go (skip : nat) (s : string) : string :=
  match s with
  | EmptyString => EmptyString
  | String c r =>
      match skip with
      | S k => String c (utf8_go k r)
      | O =>
          match rune_size c r with
          | O => replacement +:+ utf8_go 0 r
          | S k => String c (utf8_go k r)
          end
      end
  end.

(** What encoding/json makes of a Go string, writing it or reading it. *)
Definition utf8 (s : string) : string := utf8_go 0 s.

(** Time.MarshalJSON fails when the year is below 0 or above 9999. *)
Definition time_ok (t : Time) : bool :=
  ((-366 * 86400 * 1000000000 <=? t)
   && (t <? 3652059 * 86400 * 1000000000))%Z.

(** json.MarshalIndent of an ImageInfo; [None] is its error. *)
Definition MarshalIndent (info : ImageInfo) : option Object :=
  if time_ok (CreatedAt info) && time_ok (ExpiresAt info)
  then Some {| k_id := utf8 (ID info);
               k_filename := utf8 (Filename info);
               k_storagePath := utf8 (StoragePath info);
               k_size := Size info;
               k_width := Width info;
               k_height := Height info;
               k_format := utf8 (Format info);
               k_orientation := utf8 (Orientation info);
               k_tags := utf8 <$> Tags info;
               k_createdAt := CreatedAt info;
               k_expiresAt := ExpiresAt info;
               k_hasExpiry := HasExpiry info |}
  else None.

(** json.Unmarshal of an object into an ImageInfo. *)
Definition Unmarshal (o : Object) : ImageInfo :=
  {| ID := utf8 (k_id o);
     Filename := utf8 (k_filename o);
     StoragePath := utf8 (k_storagePath o);
     Size := k_size o;
     Width := k_width o;
     Height := k_height o;
     Format := utf8 (k_format o);
     Orientation := utf8 (k_orientation o);
     Tags := utf8 <$> k_tags o;
     CreatedAt := k_createdAt o;
     ExpiresAt := k_expiresAt o;
     HasExpiry := k_hasExpiry o |}.

(** The record that comes back when [info] is written and read: every
    string as encoding/json leaves it, the numbers, the times and the flag
    as they are. *)
Definition decoded (info : ImageInfo) : ImageInfo :=
  {| ID := utf8 (ID info);
     Filename := utf8 (Filename info);
     StoragePath := utf8 (StoragePath info);
     Size := Size info;
     Width := Width info;
     Height := Height info;
     Format := utf8 (Format info);
     Orientation := utf8 (Orientation info);
     Tags := utf8 <$> Tags info;
     CreatedAt := CreatedAt info;
     ExpiresAt := ExpiresAt info;
     HasExpiry := HasExpiry info |}.

(** All bytes are below 128. *)
Fixpoint is_ascii (s : string) : bool :=
  match s with
  | EmptyString => true
  | String c r => (N_of_ascii c <? 128)%N && is_ascii r
  end.

End json.

(** ** The file system *)

Abbreviation path := (list string) (only parsing).

Inductive FileData :=
  | Blob (bytes : list byte)
  | Json (doc : json.Object).

Record FS := mkFS {
  files : gmap path FileData;
  dirs : gset path;
  readonly : gset path
}.

Definition set_files (fs : FS) (m : gmap path FileData) : FS :=
  {| files := m; dirs := dirs fs; readonly := readonly fs |}.

Module OS.

Inductive oserror := ENOENT | EACCES | ENOTDIR.

(** os.IsNotExist *)
Definition IsNotExist (e : oserror) : bool :=
  match e with ENOENT => true | _ => false end.

(** The path and all its ancestors. *)
Definition ancestors (p : path) : list path :=
  (λ n, take n p) <$> seq 0 (S (length p)).

(** os.MkdirAll: fails when a component of the path is a regular file. *)
Definition MkdirAll (p : path) (fs : FS) : FS * option oserror :=
  if existsb (λ q, bool_decide (is_Some (files fs !! q))) (ancestors p)
  then (fs, Some ENOTDIR)
  else ({| files := files fs;
           dirs := list_to_set (ancestors p) ∪ dirs fs;
           readonly := readonly fs |}, None).

(** os.Create followed by io.Copy, and os.WriteFile: the file is created
    or truncated and receives the content. *)
Definition WriteFile (p : path) (d : FileData) (fs : FS) : FS * option oserror :=
  if bool_decide (p ∈ readonly fs) then (fs, Some EACCES)
  else if bool_decide (p ∈ dirs fs) then (fs, Some EACCES)
  else (set_files fs (<[p := d]> (files fs)), None).

(** os.Open and os.ReadFile *)
Definition ReadFile (p : path) (fs : FS) : FileData + oserror :=
  match files fs !! p with
  | Some d => inl d
  | None => inr ENOENT
  end.

(** os.Remove *)
Definition Remove (p : path) (fs : FS) : FS * option oserror :=
  match files fs !! p with
  | None => (fs, Some ENOENT)
  | Some _ =>
      if bool_decide (p ∈ readonly fs) then (fs, Some EACCES)
      else (set_files fs (delete p (files fs)), None)
  end.

(** [child_of dir p] is the name [n] when [p = dir ++ [n]]. *)
Definition child_of (dir p : path) : option string :=
  if bool_decide (take (length dir) p = dir)
  then match drop (length dir) p with
       | [n] => Some n
       | _ => None
       end
  else None.

(** fs.DirEntry: a name and whether it is a directory. *)
Record DirEntry := mkDirEntry { Name : string; IsDir : bool }.

Definition file_names (dir : path) (fs : FS) : list string :=
  omap (child_of dir) (elements (dom (files fs))).

Definition dir_names (dir : path) (fs : FS) : list string :=
  omap (child_of dir) (elements (dirs fs)).

End OS.

(** The directory listings of os.ReadDir and filepath.Glob are sorted by
    file name (sort.Strings on the names). *)
Fixpoint insert_sorted {A} (leb : A → A → bool) (x : A) (l : list A) : list A :=
  match l with
  | [] => [x]
  | y :: r => if leb x y then x :: y :: r else y :: insert_sorted leb x r
  end.

Definition sort_by {A} (leb : A → A → bool) (l : list A) : list A :=
  foldr (insert_sorted leb) [] l.

Definition entry_leb (a b : OS.DirEntry) : bool :=
  String.leb (OS.Name a) (OS.Name b).

(** os.ReadDir *)
Definition ReadDir (dir : path) (fs : FS) : option (list OS.DirEntry) :=
  if bool_decide (dir ∈ dirs fs)
  then Some (sort_by entry_leb
               (((λ n, OS.mkDirEntry n false) <$> OS.file_names dir fs)
                ++ ((λ n, OS.mkDirEntry n true) <$> OS.dir_names dir fs)))
  else None.

(** filepath.Glob(filepath.Join(dir, id+".*")): the paths of the files of
    [dir] whose name starts with [id ++ "."], in the order of their names.
    The id is matched literally: it holds none of the pattern characters
    of filepath.Match, and the variant directories hold files only. *)
Definition Glob (dir : path) (id : string) (fs : FS) : list path :=
  (λ n, dir ++ [n])
    <$> sort_by String.leb (filter (λ n, Str.HasPrefix n (id +:+ ".") = true)
                              (OS.file_names dir fs)).

(** ** local.go *)

Record LocalStorage := mkLocalStorage { basePath : path }.

(** generateID: [fmt.Sprintf("%d", time.Now().UnixNano())]; [now] is the
    reading of the clock. *)
Definition generateID (now : Time) : string := pretty (UnixNano now).

(** The directory a variant is stored in, below the base path (Save,
    lines 78-83). *)
Definition variantDir (format : ImageFormat) (orientation : ImageOrientation)
    : path :=
  if bool_decide (format = Original)
  then ["original"; orientation]
  else [format; orientation].

(** The extension Save gives the stored file (lines 91-94). *)
Definition variantExt (filename : string) (format : ImageFormat) : string :=
  if bool_decide (format ≠ Original)
  then "." +:+ Str.ToLower format
  else Str.Ext filename.

(** LocalStorage.Save; [now] is the clock reading of its generateID call. *)
Definition Save (s : LocalStorage) (now : Time) (reader : list byte)
    (filename : string) (format : ImageFormat)
    (orientation : ImageOrientation) (fs : FS) : FS * result string :=
  let id := generateID now in
  let dirPath := basePath s ++ variantDir format orientation in
  match OS.MkdirAll dirPath fs with
  | (fs1, Some _) => (fs1, Err ErrMkdir)
  | (fs1, None) =>
      let ext := variantExt filename format in
      let filePath := dirPath ++ [id +:+ ext] in
      match OS.WriteFile filePath (Blob reader) fs1 with
      | (fs2, Some _) => (fs2, Err ErrCreate)
      | (fs2, None) => (fs2, Ok id)
      end
  end.

(** The path resolution shared, line for line, by Delete (116-131) and Get
    (148-163): a glob for the original, a fixed name for the other formats. *)
Definition resolvePath (s : LocalStorage) (id : string) (format : ImageFormat)
    (orientation : ImageOrientation) (fs : FS) : result path :=
  if bool_decide (format = Original)
  then
    let dirPath := basePath s ++ ["original"; orientation] in
    match Glob dirPath id fs with
    | [] => Err ErrFileNotFound
    | filePath :: _ => Ok filePath
    end
  else
    let ext := "." +:+ Str.ToLower format in
    Ok (basePath s ++ [format; orientation; id +:+ ext]).

(** LocalStorage.Delete *)
Definition Delete (s : LocalStorage) (id : string) (format : ImageFormat)
    (orientation : ImageOrientation) (fs : FS) : FS * option error :=
  match resolvePath s id format orientation fs with
  | Err e => (fs, Some e)
  | Ok filePath =>
      match OS.Remove filePath fs with
      | (fs1, Some e) =>
          if OS.IsNotExist e then (fs1, Some ErrFileNotFound)
          else (fs1, Some ErrRemove)
      | (fs1, None) => (fs1, None)
      end
  end.

(** LocalStorage.Get; the stream is the content of the file. *)
Definition Get (s : LocalStorage) (id : string) (format : ImageFormat)
    (orientation : ImageOrientation) (fs : FS) : result FileData :=
  match resolvePath s id format orientation fs with
  | Err e => Err e
  | Ok filePath =>
      match OS.ReadFile filePath fs with
      | inr e => if OS.IsNotExist e then Err ErrFileNotFound else Err ErrOpen
      | inl file => Ok file
      end
  end.

(** LocalStorage.GetURL *)
Definition GetURL (s : LocalStorage) (id : string) (format : ImageFormat)
    (orientation : ImageOrientation) : string :=
  if bool_decide (format = Original)
  then "/static/images/original/" +:+ orientation +:+ "/" +:+ id
  else "/static/images/" +:+ format +:+ "/" +:+ orientation +:+ "/" +:+ id
       +:+ "." +:+ Str.ToLower format.

Definition metadataPath (s : LocalStorage) (id : string) : path :=
  basePath s ++ ["metadata"; id +:+ ".json"].

(** LocalStorage.GetInfo *)
Definition GetInfo (s : LocalStorage) (id : string) (fs : FS)
    : result ImageInfo :=
  match OS.ReadFile (metadataPath s id) fs with
  | inr e =>
      if OS.IsNotExist e then Err ErrFileNotFound else Err ErrReadMetadata
  | inl (Json doc) => Ok (json.Unmarshal doc)
  | inl (Blob _) => Err ErrParseMetadata
  end.

(** LocalStorage.SaveInfo *)
Definition SaveInfo (s : LocalStorage) (info : ImageInfo) (fs : FS)
    : FS * option error :=
  let metadataDir := basePath s ++ ["metadata"] in
  match OS.MkdirAll metadataDir fs with
  | (fs1, Some _) => (fs1, Some ErrMkdir)
  | (fs1, None) =>
      match json.MarshalIndent info with
      | None => (fs1, Some ErrMarshalMetadata)
      | Some data =>
          match OS.WriteFile (metadataDir ++ [ID info +:+ ".json"])
                  (Json data) fs1 with
          | (fs2, Some _) => (fs2, Some ErrWriteMetadata)
          | (fs2, None) => (fs2, None)
          end
      end
  end.

(** LocalStorage.DeleteInfo *)
Definition DeleteInfo (s : LocalStorage) (id : string) (fs : FS)
    : FS * option error :=
  match OS.Remove (metadataPath s id) fs with
  | (fs1, Some e) =>
      if OS.IsNotExist e then (fs1, Some ErrFileNotFound)
      else (fs1, Some ErrRemoveMetadata)
  | (fs1, None) => (fs1, None)
  end.

(** The body of the loop of LocalStorage.List. *)
Definition List_step (s : LocalStorage) (fs : FS) (images : list ImageInfo)
    (file : OS.DirEntry) : list ImageInfo :=
  if OS.IsDir file || negb (Str.HasSuffix (OS.Name file) ".json") then images
  else
    let id := Str.TrimSuffix (OS.Name file) ".json" in
    match GetInfo s id fs with
    | Err _ => images
    | Ok info => images ++ [info]
    end.

(** LocalStorage.List *)
Definition List (s : LocalStorage) (fs : FS) : result (list ImageInfo) :=
  match ReadDir (basePath s ++ ["metadata"]) fs with
  | None => Err ErrReadDir
  | Some entries => Ok (foldl (List_step s fs) [] entries)
  end.

(** The expiry test of CleanExpired (line 290). *)
Definition expired (now : Time) (info : ImageInfo) : bool :=
  HasExpiry info && negb (IsZero (ExpiresAt info))
  && Before (ExpiresAt info) now.

(** The body of the loop of CleanExpired: the errors of the four deletions
    are dropped. *)
Definition CleanExpired_step (s : LocalStorage) (now : Time)
    (st : FS * nat) (file : OS.DirEntry) : FS * nat :=
  let '(fs, count) := st in
  if OS.IsDir file || negb (Str.HasSuffix (OS.Name file) ".json") then st
  else
    let id := Str.TrimSuffix (OS.Name file) ".json" in
    match GetInfo s id fs with
    | Err _ => st
    | Ok info =>
        if expired now info then
          let fs1 := (Delete s id Original (Orientation info) fs).1 in
          let fs2 := (Delete s id WebP (Orientation info) fs1).1 in
          let fs3 := (Delete s id AVIF (Orientation info) fs2).1 in
          let fs4 := (DeleteInfo s id fs3).1 in
          (fs4, S count)
        else st
    end.

(** LocalStorage.CleanExpired; [now] is its one reading of the clock. *)
Definition CleanExpired (s : LocalStorage) (now : Time) (fs : FS)
    : FS * result nat :=
  match ReadDir (basePath s ++ ["metadata"]) fs with
  | None => (fs, Err ErrReadDir)
  | Some entries =>
      let '(fs', count) := foldl (CleanExpired_step s now) (fs, O) entries in
      (fs', Ok count)
  end.


(** ** pkg/converter *)

Module converter.

(** image.Rectangle, with Go's 64-bit [int] coordinates. *)
Record Rectangle := mkRectangle { MinX : Z; MinY : Z; MaxX : Z; MaxY : Z }.

Definition Dx (r : Rectangle) : Z := wrap64 (MaxX r - MinX r).
Definition Dy (r : Rectangle) : Z := wrap64 (MaxY r - MinY r).

(** converter.ImageInfo *)
Record ImageInfo := mkImageInfo {
  Width : Z;
  Height : Z;
  Format : string;
  Orientation : string
}.

(** converter.GetImageInfo; of the image only its bounds are read. *)
Definition GetImageInfo (bounds : Rectangle) (format : string) : ImageInfo :=
  let width := Dx bounds in
  let height := Dy bounds in
  let orientation := if (height >? width)%Z then "portrait" else "landscape" in
  {| Width := width; Height := height; Format := format;
     Orientation := orientation |}.

(** converter.FormatFromExtension; the formats are the strings of the
    constants JPEG, PNG, GIF, WebP and AVIF. *)
Definition FormatFromExtension (filename : string) : string :=
  let ext := Str.ToLower (Str.Ext filename) in
  if String.eqb ext ".jpg" || String.eqb ext ".jpeg" then "jpeg"
  else if String.eqb ext ".png" then "png"
  else if String.eqb ext ".gif" then "gif"
  else if String.eqb ext ".webp" then "webp"
  else if String.eqb ext ".avif" then "avif"
  else "".

(** converter.ExtensionFromFormat *)
Definition ExtensionFromFormat (format : string) : string :=
  if String.eqb format "jpeg" then ".jpg"
  else if String.eqb format "png" then ".png"
  else if String.eqb format "gif" then ".gif"
  else if String.eqb format "webp" then ".webp"
  else if String.eqb format "avif" then ".avif"
  else "".

End converter.

(** ** internal/api *)

(** multipart.FileHeader, as far as the upload reads it. *)
Record FileHeader := mkFileHeader { fh_Filename : string; fh_Size : Z }.

(** The save sequence of UploadHandler for one file (lines 118-165), after
    the conversion has produced [data] and [info].  [original] is the
    content of the temporary copy of the upload; [t1], [t2] are the clock
    readings inside the two Save calls and [t3] the one of [CreatedAt].
    The result is the URL appended to [urls], or the step that failed. *)
Definition UploadHandler_save (store : LocalStorage) (file : FileHeader)
    (original data : list byte) (info : converter.ImageInfo)
    (t1 t2 t3 : Time) (fs : FS) : FS * result string :=
  match Save store t1 original (fh_Filename file) Original
          (converter.Orientation info) fs with
  | (fs1, Err e) => (fs1, Err e)
  | (fs1, Ok id) =>
      match Save store t2 data (fh_Filename file) WebP
              (converter.Orientation info) fs1 with
      | (fs2, Err e) => (fs2, Err e)
      | (fs2, Ok _) =>
          let imageInfo :=
            {| ID := id;
               Filename := fh_Filename file;
               StoragePath :=
                 Str.Join ["original"; converter.Orientation info] "/";
               Size := fh_Size file;
               Width := converter.Width info;
               Height := converter.Height info;
               Format := converter.Format info;
               Orientation := converter.Orientation info;
               Tags := [];
               CreatedAt := t3;
               ExpiresAt := 0%Z;
               HasExpiry := false |} in
          match SaveInfo store imageInfo fs2 with
          | (fs3, Some e) => (fs3, Err e)
          | (fs3, None) =>
              (fs3, Ok (GetURL store id Original (converter.Orientation info)))
          end
      end
  end.

(** UpdateTagsHandler: [id] is the path parameter, [body] the tags of the
    request body ([None] when it does not bind).  The result is the HTTP
    status of the response. *)
Definition UpdateTagsHandler (store : LocalStorage) (id : string)
    (body : option (list string)) (fs : FS) : FS * Z :=
  if bool_decide (id = "") then (fs, 400%Z)
  else
    match body with
    | None => (fs, 400%Z)
    | Some req_Tags =>
        match GetInfo store id fs with
        | Err _ => (fs, 404%Z)
        | Ok img =>
            let img' :=
              {| ID := ID img; Filename := Filename img;
                 StoragePath := StoragePath img; Size := Size img;
                 Width := Width img; Height := Height img;
                 Format := Format img; Orientation := Orientation img;
                 Tags := req_Tags;
                 CreatedAt := CreatedAt img; ExpiresAt := ExpiresAt img;
                 HasExpiry := HasExpiry img |} in
            match SaveInfo store img' fs with
            | (fs1, Some _) => (fs1, 500%Z)
            | (fs1, None) => (fs1, 200%Z)
            end
        end
    end.

(** ** local.go: construction *)

(** One [os.MkdirAll] of ensureDirectories: on an error the function
    returns it, otherwise it goes on with [k]. *)
Definition mkdir_then (p : path) (k : FS → FS * option OS.oserror) (fs : FS)
    : FS * option OS.oserror :=
  match OS.MkdirAll p fs with
  | (fs1, Some e) => (fs1, Some e)
  | (fs1, None) => k fs1
  end.

(** ensureDirectories *)
Definition ensureDirectories (base : path) : FS → FS * option OS.oserror :=
  let originalDir := base ++ ["original"] in
  let webpDir := base ++ [WebP] in
  let avifDir := base ++ [AVIF] in
  mkdir_then base
    (mkdir_then (originalDir ++ [Landscape])
    (mkdir_then (originalDir ++ [Portrait])
    (mkdir_then (webpDir ++ [Landscape])
    (mkdir_then (webpDir ++ [Portrait])
    (mkdir_then (avifDir ++ [Landscape])
    (mkdir_then (avifDir ++ [Portrait])
    (mkdir_then (base ++ ["metadata"])
    (λ fs, (fs, None))))))))).

(** NewLocalStorage *)
Definition NewLocalStorage (base : path) (fs : FS) : FS * result LocalStorage :=
  match ensureDirectories base fs with
  | (fs1, Some _) => (fs1, Err ErrMkdir)
  | (fs1, None) => (fs1, Ok {| basePath := base |})
  end.

(** ** internal/api: the other handlers *)


(** ImageResponse *)
Record ImageResponse := mkImageResponse {
  r_ID : string;
  r_Filename : string;
  r_URL : string;
  r_ThumbnailURL : string;
  r_Size : Z;
  r_Width : Z;
  r_Height : Z;
  r_Format : string;
  r_Orientation : string;
  r_Tags : list string;
  r_CreatedAt : Time;
  r_ExpiresAt : Time;
  r_HasExpiry : bool
}.

(** The response built for one image by ListImagesHandler (lines 109-129)
    and GetImageHandler (lines 166-188). *)
Definition toResponse (store : LocalStorage) (img : ImageInfo) : ImageResponse :=
  {| r_ID := ID img;
     r_Filename := Filename img;
     r_URL := GetURL store (ID img) Original (Orientation img);
     r_ThumbnailURL := GetURL store (ID img) WebP (Orientation img);
     r_Size := Size img;
     r_Width := Width img;
     r_Height := Height img;
     r_Format := Format img;
     r_Orientation := Orientation img;
     r_Tags := Tags img;
     r_CreatedAt := CreatedAt img;
     r_ExpiresAt := ExpiresAt img;
     r_HasExpiry := HasExpiry img |}.

(** GetImageHandler: the status and, for 200, the data of the response. *)
Definition GetImageHandler (store : LocalStorage) (id : string) (fs : FS)
    : Z * option ImageResponse :=
  if bool_decide (id = "") then (400%Z, None)
  else
    match GetInfo store id fs with
    | Err _ => (404%Z, None)
    | Ok img => (200%Z, Some (toResponse store img))
    end.

(** ListImagesResponse *)
Record ListImagesResponse := mkListImagesResponse {
  l_Total : Z;
  l_Page : Z;
  l_Limit : Z;
  l_Data : list ImageResponse
}.

(** The slice expression [l[low:high]]: [None] is the run-time panic
    "slice bounds out of range". *)
Definition slice {A} (l : list A) (low high : Z) : option (list A) :=
  if ((0 <=? low) && (low <=? high) && (high <=? Z.of_nat (length l)))%Z
  then Some (take (Z.to_nat (high - low)) (drop (Z.to_nat low) l))
  else None.

(** The inner loop of the tag filter: does the image carry the tag? *)
Definition has_tag (tag : string) (img : ImageInfo) : bool :=
  existsb (String.eqb tag) (Tags img).

(** What a handler does with a request: it answers, or it panics. *)
Inductive outcome (A : Type) :=
  | Responds (status : Z) (body : option A)
  | Panics.
Arguments Responds {A} status body.
Arguments Panics {A}.

(** ListImagesHandler.  [page] and [limit] are the results of strconv.Atoi
    on the query parameters (0 when they do not parse), 64-bit integers. *)
Definition ListImagesHandler (store : LocalStorage) (page limit : Z)
    (tag : string) (fs : FS) : outcome ListImagesResponse :=
  let page := if (page <? 1)%Z then 1%Z else page in
  let limit := if ((limit <? 1) || (limit >? 100))%Z then 20%Z else limit in
  match List store fs with
  | Err _ => Responds 500 None
  | Ok images =>
      let filteredImages :=
        if bool_decide (tag ≠ "")
        then filter (λ img, has_tag tag img = true) images
        else images in
      let total := Z.of_nat (length filteredImages) in
      let start := wrap64 ((page - 1) * limit) in
      let end_ := wrap64 (start + limit) in
      let start' := if (start >=? total)%Z then 0%Z else start in
      let page' := if (start >=? total)%Z then 1%Z else page in
      let end' := if (end_ >? total)%Z then total else end_ in
      if (start' <? total)%Z then
        match slice filteredImages start' end' with
        | None => Panics
        | Some pageImages =>
            Responds 200
              (Some {| l_Total := total; l_Page := page'; l_Limit := limit;
                       l_Data := toResponse store <$> pageImages |})
        end
      else
        Responds 200
          (Some {| l_Total := total; l_Page := page'; l_Limit := limit;
                   l_Data := [] |})
  end.

(** isAllowedImageType: a lookup in the map of the allowed extensions. *)
Definition allowedTypes : gmap string bool :=
  list_to_map [(".jpg", true); (".jpeg", true); (".png", true);
               (".gif", true); (".webp", true); (".avif", true)].

Definition isAllowedImageType (ext : string) : bool :=
  default false (allowedTypes !! ext).

(** config.Config, as far as the upload reads it. *)
Record Config := mkConfig { MaxUploadSize : Z; MaxUploadCount : Z }.

(** One part of the multipart form: its header and its bytes. *)
Record Upload := mkUpload { header : FileHeader; content : list byte }.

(** The entries of [errors], by the step that failed. *)
Inductive UploadError :=
  | TooLarge (filename : string)
  | TypeNotSupported (filename : string)
  | ConvertFailed (filename : string)
  | SaveFailed (e : error).

(** The body of the loop of UploadHandler for one file.  [convert] is
    converter.ConvertFromReader with the options of the configuration, on
    the bytes of the file; [ts] are the clock readings of the save sequence.
    Opening the part and copying it to the temporary file are taken to
    succeed. *)
Definition UploadHandler_step (cfg : Config) (store : LocalStorage)
    (convert : list byte → option (list byte * converter.ImageInfo))
    (ts : Time * Time * Time)
    (st : FS * list string * list UploadError) (file : Upload)
    : FS * list string * list UploadError :=
  let '(fs, urls, errors) := st in
  if (fh_Size (header file) >? MaxUploadSize cfg)%Z
  then (fs, urls, errors ++ [TooLarge (fh_Filename (header file))])
  else
    let ext := Str.ToLower (Str.Ext (fh_Filename (header file))) in
    if negb (isAllowedImageType ext)
    then (fs, urls, errors ++ [TypeNotSupported (fh_Filename (header file))])
    else
      match convert (content file) with
      | None => (fs, urls, errors ++ [ConvertFailed (fh_Filename (header file))])
      | Some (data, info) =>
          match UploadHandler_save store (header file) (content file) data info
                  ts.1.1 ts.1.2 ts.2 fs with
          | (fs1, Err e) => (fs1, urls, errors ++ [SaveFailed e])
          | (fs1, Ok url) => (fs1, urls ++ [url], errors)
          end
      end.

(** The loop of UploadHandler: file number [i] of the form reads the clock
    at [clock i]. *)
Fixpoint UploadHandler_loop (cfg : Config) (store : LocalStorage)
    (convert : list byte → option (list byte * converter.ImageInfo))
    (clock : nat → Time * Time * Time) (i : nat)
    (st : FS * list string * list UploadError) (files : list Upload)
    : FS * list string * list UploadError :=
  match files with
  | [] => st
  | file :: rest =>
      UploadHandler_loop cfg store convert clock (S i)
        (UploadHandler_step cfg store convert (clock i) st file) rest
  end.

(** UploadResponse: the status, the URLs and the errors. *)
Record UploadResponse := mkUploadResponse {
  u_status : Z;
  u_Data : list string;
  u_Errors : list UploadError
}.

(** UploadHandler.  [form] is the list of the parts named "images" ([None]
    when the multipart form does not parse). *)
Definition UploadHandler (cfg : Config) (store : LocalStorage)
    (convert : list byte → option (list byte * converter.ImageInfo))
    (clock : nat → Time * Time * Time) (form : option (list Upload)) (fs : FS)
    : FS * UploadResponse :=
  match form with
  | None => (fs, mkUploadResponse 400 [] [])
  | Some files =>
      if (length files =? 0)%nat then (fs, mkUploadResponse 400 [] [])
      else if (Z.of_nat (length files) >? MaxUploadCount cfg)%Z
      then (fs, mkUploadResponse 400 [] [])
      else
        let '(fs', urls, errors) :=
          UploadHandler_loop cfg store convert clock 0 (fs, [], []) files in
        if (length errors =? 0)%nat
        then (fs', mkUploadResponse 200 urls [])
        else if (0 <? length urls)%nat
        then (fs', mkUploadResponse 200 urls errors)
        else (fs', mkUploadResponse 400 [] errors)
  end.

(** ** Vocabulary of the statements *)

(** [fs'] is [fs] with some files removed, all of them among [P]; the
    directories and the permissions are those of [fs]. *)
Definition shrinks (P : path → Prop) (fs fs' : FS) : Prop :=
  dirs fs' = dirs fs ∧ readonly fs' = readonly fs
  ∧ ∀ q, files fs' !! q = files fs !! q ∨ (P q ∧ files fs' !! q = None).

(** The paths that Delete and DeleteInfo, called for [id], can remove: the
    metadata file, the files [id.*] of an original directory, and the file
    [id.<format>] of another format. *)
Definition owned (s : LocalStorage) (id : string) (q : path) : Prop :=
  q = metadataPath s id
  ∨ (∃ o n, q = basePath s ++ ["original"; o; n]
            ∧ Str.HasPrefix n (id +:+ ".") = true)
  ∨ (∃ f o, f ≠ Original
            ∧ q = basePath s ++ [f; o; id +:+ "." +:+ Str.ToLower f]).

(** The entry of the metadata directory is one that the loop of
    CleanExpired, run on [fs], takes for expired. *)
Definition expired_entry (s : LocalStorage) (now : Time) (fs : FS)
    (file : OS.DirEntry) : bool :=
  negb (OS.IsDir file) && Str.HasSuffix (OS.Name file) ".json"
  && match GetInfo s (Str.TrimSuffix (OS.Name file) ".json") fs with
     | Ok info => expired now info
     | Err _ => false
     end.

(** The four deletions CleanExpired makes for an expired item. *)
Definition purge (s : LocalStorage) (id : string) (o : ImageOrientation)
    (fs : FS) : FS :=
  let fs1 := (Delete s id Original o fs).1 in
  let fs2 := (Delete s id WebP o fs1).1 in
  let fs3 := (Delete s id AVIF o fs2).1 in
  (DeleteInfo s id fs3).1.




(** What one entry of the metadata directory contributes to List. *)
Definition listed (s : LocalStorage) (fs : FS) (e : OS.DirEntry)
    : option ImageInfo :=
  if OS.IsDir e || negb (Str.HasSuffix (OS.Name e) ".json") then None
  else match GetInfo s (Str.TrimSuffix (OS.Name e) ".json") fs with
       | Ok info => Some info
       | Err _ => None
       end.


(** The page, the limit and the filtered list that ListImagesHandler works
    with (lines 56-61 and 75-87). *)
Definition norm_page (page : Z) : Z := if (page <? 1)%Z then 1%Z else page.

Definition norm_limit (limit : Z) : Z :=
  if ((limit <? 1) || (limit >? 100))%Z then 20%Z else limit.

Definition filter_tag (tag : string) (images : list ImageInfo)
    : list ImageInfo :=
  if bool_decide (tag ≠ "")
  then filter (λ img, has_tag tag img = true) images
  else images.


(** The text holds neither a dot nor a path separator. *)
Fixpoint plain (e : string) : bool :=
  match e with
  | EmptyString => true
  | String c r =>
      negb (Ascii.eqb c ".") && negb (Str.IsPathSeparator c) && plain r
  end.

(** The directories of the layout, in the order in which ensureDirectories
    creates them. *)
Definition layout (base : path) : list path :=
  [base;
   base ++ ["original"; Landscape]; base ++ ["original"; Portrait];
   base ++ [WebP; Landscape]; base ++ [WebP; Portrait];
   base ++ [AVIF; Landscape]; base ++ [AVIF; Portrait];
   base ++ ["metadata"]].


(** Every metadata record is stored under its own id, as SaveInfo stores
    it. *)
Definition keyed (s : LocalStorage) (fs : FS) : Prop :=
  ∀ id info, GetInfo s id fs = Ok info → ID info = id.

(** ** A small store, used to run the statements *)

Module demo.

Definition store : LocalStorage := mkLocalStorage ["static"; "images"].

(** A clock reading, [n] nanoseconds after a fixed instant of 2021. *)
Definition t (n : Z) : Time :=
  (unixToInternal * 1000000000 + 1617123456789000000 + n)%Z.

Definition empty : FS := mkFS ∅ ∅ ∅.

Definition file : FileHeader := mkFileHeader "photo.jpg" 3.

Definition info : converter.ImageInfo :=
  converter.GetImageInfo (converter.mkRectangle 0 0 100 50) "webp".

(** One upload: the clock advances by a microsecond between the calls. *)
Definition uploaded : FS :=
  (UploadHandler_save store file [x01; x02; x03] [x09] info
     (t 0) (t 1000) (t 2000) empty).1.

(** The record that the upload stored. *)
Definition uploaded_record : ImageInfo :=
  {| ID := generateID (t 0); Filename := "photo.jpg";
     StoragePath := "original/landscape"; Size := 3; Width := 100;
     Height := 50; Format := "webp"; Orientation := "landscape"; Tags := [];
     CreatedAt := t 2000; ExpiresAt := 0%Z; HasExpiry := false |}.


(** A record that expired at [t 6000]. *)
Definition expiring : ImageInfo :=
  {| ID := generateID (t 5000); Filename := "old.png";
     StoragePath := "original/portrait"; Size := 2; Width := 50;
     Height := 100; Format := "webp"; Orientation := "portrait"; Tags := [];
     CreatedAt := t 5000; ExpiresAt := t 6000; HasExpiry := true |}.

(** The store after the upload and after an expiring item was stored with
    both its variants under one id. *)
Definition two_items : FS :=
  let fs1 := (Save store (t 5000) [x04; x05] "old.png" Original "portrait"
                uploaded).1 in
  let fs2 := (Save store (t 5000) [x06] "old.png" WebP "portrait" fs1).1 in
  (SaveInfo store expiring fs2).1.

(** The same store, on a file system that refuses to remove the metadata
    file of the expiring item. *)
Definition two_items_locked : FS :=
  {| files := files two_items; dirs := dirs two_items;
     readonly := {[ metadataPath store (ID expiring) ]} |}.



(** The store of the two items after the uploaded one got two tags. *)
Definition tagged : FS :=
  (UpdateTagsHandler store (ID uploaded_record) (Some ["cat"; "sea"])
     two_items).1.




End demo.

(** * Properties *)

(** ** Strings *)

Section StrFacts.

Implicit Types s a b r : string.

Lemma str_app_cons c a b : String c a +:+ b = String c (a +:+ b).
Proof. reflexivity. Qed.

Lemma str_app_nil_l s : "" +:+ s = s.
Proof. reflexivity. Qed.

Ltac str_simpl := simpl; rewrite ?str_app_cons, ?str_app_nil_l; simpl.

Lemma str_app_nil_r s : s +:+ "" = s.
Proof. induction s as [|c s IH]; str_simpl; [done | by rewrite IH]. Qed.

Lemma str_app_assoc a b r : (a +:+ b) +:+ r = a +:+ (b +:+ r).
Proof. induction a as [|c a IH]; str_simpl; [done | by rewrite IH]. Qed.

Lemma str_length_app a b :
  String.length (a +:+ b) = String.length a + String.length b.
Proof. induction a as [|c a IH]; str_simpl; [done | by rewrite IH]. Qed.

Lemma upto_from n s : Str.upto n s +:+ Str.from n s = s.
Proof.
  revert s. induction n as [|n IH]; intros [|c s]; try reflexivity.
  simpl. rewrite str_app_cons. f_equal. apply IH.
Qed.

Lemma upto_app a b : Str.upto (String.length a) (a +:+ b) = a.
Proof. induction a as [|c a IH]; str_simpl; [by destruct b | by rewrite IH]. Qed.

Lemma from_app a b : Str.from (String.length a) (a +:+ b) = b.
Proof. induction a as [|c a IH]; str_simpl; done. Qed.

Lemma HasSuffix_app a b : Str.HasSuffix (a +:+ b) b = true.
Proof.
  unfold Str.HasSuffix. rewrite str_length_app.
  replace (String.length a + String.length b - String.length b)
    with (String.length a) by lia.
  rewrite from_app, String.eqb_refl, andb_true_r.
  apply Nat.leb_le. lia.
Qed.

Lemma TrimSuffix_app a b : Str.TrimSuffix (a +:+ b) b = a.
Proof.
  unfold Str.TrimSuffix. rewrite HasSuffix_app, str_length_app.
  replace (String.length a + String.length b - String.length b)
    with (String.length a) by lia.
  apply upto_app.
Qed.

Lemma TrimSuffix_HasSuffix s suffix :
  Str.HasSuffix s suffix = true → Str.TrimSuffix s suffix +:+ suffix = s.
Proof.
  intros H. unfold Str.TrimSuffix. rewrite H.
  unfold Str.HasSuffix in H. apply andb_true_iff in H as [_ H].
  apply String.eqb_eq in H.
  set (n := String.length s - String.length suffix) in *.
  rewrite <- H. apply upto_from.
Qed.

Lemma HasPrefix_app a b : Str.HasPrefix (a +:+ b) a = true.
Proof.
  unfold Str.HasPrefix. rewrite str_length_app, upto_app, String.eqb_refl.
  rewrite andb_true_r. apply Nat.leb_le. lia.
Qed.




Lemma get_Some_lt n s c : String.get n s = Some c → n < String.length s.
Proof.
  revert n. induction s as [|d s IH]; intros [|n]; simpl; try done; [lia|].
  intros ?%IH. lia.
Qed.

Lemma get_lt_Some n s : n < String.length s → ∃ c, String.get n s = Some c.
Proof.
  revert n. induction s as [|d s IH]; intros [|n]; simpl; try lia; eauto.
  intros ?. apply IH. lia.
Qed.

Lemma from_get n s c :
  String.get n s = Some c → Str.from n s = String c (Str.from (S n) s).
Proof.
  revert n. induction s as [|d s IH]; intros [|n]; simpl; try done.
  - by intros [= ->].
  - intros H. rewrite (IH _ H). done.
Qed.

Lemma from_length s : Str.from (String.length s) s = "".
Proof. induction s; simpl; done. Qed.

Lemma Ext_scan_shape path n :
  n ≤ String.length path →
  Str.has_dot (Str.from n path) = false →
  Str.Ext_scan path n = ""
  ∨ ∃ e, Str.Ext_scan path n = String "." e ∧ Str.has_dot e = false.
Proof.
  induction n as [|n IH]; intros Hn Hd; simpl; [by left|].
  destruct (get_lt_Some n path) as [c Hc]; [lia|]. rewrite Hc.
  destruct (Str.IsPathSeparator c); [by left|].
  rewrite (from_get _ _ _ Hc).
  destruct (Ascii.eqb_spec c ".") as [->|Hne].
  - right. eauto.
  - apply IH; [lia|]. rewrite (from_get _ _ _ Hc).
    change (Ascii.eqb c "." || Str.has_dot (Str.from (S n) path) = false).
    rewrite Hd. by apply Ascii.eqb_neq in Hne as ->.
Qed.

(** filepath.Ext returns the empty string or one dot followed by text
    without a dot. *)
Lemma Ext_shape path :
  Str.Ext path = ""
  ∨ ∃ e, Str.Ext path = String "." e ∧ Str.has_dot e = false.
Proof.
  apply Ext_scan_shape; [done|]. by rewrite from_length.
Qed.

End StrFacts.




Lemma generateID_inj (t u : Time) :
  generateID t = generateID u → UnixNano t = UnixNano u.
Proof. unfold generateID. apply (inj pretty). Qed.

(** ** encoding/json *)

Section JsonFacts.

(** The size that utf8.DecodeRuneInString finds depends on the bytes of
    the sequence only. *)
Lemma rune_size_spec (c : ascii) (r : string) :
  json.rune_size c r = 0
  ∨ (json.rune_size c r = 1 ∧ ∀ t, json.rune_size c t = 1)
  ∨ (∃ c1 t, r = String c1 t ∧ json.rune_size c r = 2
             ∧ ∀ t', json.rune_size c (String c1 t') = 2)
  ∨ (∃ c1 c2 t, r = String c1 (String c2 t) ∧ json.rune_size c r = 3
                ∧ ∀ t', json.rune_size c (String c1 (String c2 t')) = 3)
  ∨ (∃ c1 c2 c3 t,
       r = String c1 (String c2 (String c3 t)) ∧ json.rune_size c r = 4
       ∧ ∀ t', json.rune_size c (String c1 (String c2 (String c3 t'))) = 4).
Proof using Type.
  unfold json.rune_size.
  destruct (N_of_ascii c <? 128)%N; [right; left; done|].
  destruct (N_of_ascii c <? 194)%N; [by left|].
  destruct (N_of_ascii c <? 224)%N.
  { destruct r as [|c1 t]; [by left|].
    destruct (json.byte_in 128 191 c1) eqn:E1; [|by left].
    right. right. left. exists c1, t. by rewrite E1. }
  destruct (N_of_ascii c <? 240)%N.
  { destruct r as [|c1 [|c2 t]]; [by left..|].
    destruct (json.byte_in _ _ c1 && json.byte_in 128 191 c2) eqn:E; [|by left].
    right. right. right. left. exists c1, c2, t. by rewrite E. }
  destruct (N_of_ascii c <? 245)%N; [|by left].
  destruct r as [|c1 [|c2 [|c3 t]]]; [by left..|].
  destruct (json.byte_in _ _ c1 && json.byte_in 128 191 c2
            && json.byte_in 128 191 c3) eqn:E; [|by left].
  right. right. right. right. exists c1, c2, c3, t. by rewrite E.
Qed.

Lemma utf8_replacement (t : string) :
  json.utf8 (json.replacement +:+ t) = json.replacement +:+ json.utf8 t.
Proof using Type. reflexivity. Qed.

Lemma utf8_idem_bounded (n : nat) (s : string) :
  String.length s ≤ n → json.utf8 (json.utf8 s) = json.utf8 s.
Proof using Type.
  revert s. induction n as [|n IH]; intros [|c r] Hn; cbn [String.length] in Hn;
    [done|lia|done|].
  unfold json.utf8 at 2 3. cbn [json.utf8_go].
  destruct (rune_size_spec c r)
    as [E|[[E Hx]|[(c1 & t & -> & E & Hx)|[(c1 & c2 & t & -> & E & Hx)
       |(c1 & c2 & c3 & t & -> & E & Hx)]]]]; rewrite E;
    cbn [json.utf8_go String.length] in Hn |- *.
  - fold (json.utf8 r). rewrite utf8_replacement, IH by lia. done.
  - fold (json.utf8 r). unfold json.utf8 at 1. cbn [json.utf8_go].
    rewrite Hx. fold (json.utf8 (json.utf8 r)). rewrite IH by lia. done.
  - fold (json.utf8 t). unfold json.utf8 at 1. cbn [json.utf8_go].
    rewrite Hx. cbn [json.utf8_go].
    fold (json.utf8 (json.utf8 t)). rewrite IH by lia. done.
  - fold (json.utf8 t). unfold json.utf8 at 1. cbn [json.utf8_go].
    rewrite Hx. cbn [json.utf8_go].
    fold (json.utf8 (json.utf8 t)). rewrite IH by lia. done.
  - fold (json.utf8 t). unfold json.utf8 at 1. cbn [json.utf8_go].
    rewrite Hx. cbn [json.utf8_go].
    fold (json.utf8 (json.utf8 t)). rewrite IH by lia. done.
Qed.

(** Reading what was written, or writing what was read, changes no
    string any more. *)
Lemma utf8_idem (s : string) : json.utf8 (json.utf8 s) = json.utf8 s.
Proof using Type. by apply (utf8_idem_bounded (String.length s)). Qed.

(** ASCII text is well-formed UTF-8. *)
Lemma utf8_ascii (s : string) : json.is_ascii s = true → json.utf8 s = s.
Proof using Type.
  induction s as [|c r IH]; [done|]. cbn [json.is_ascii].
  intros [Hc Hr]%andb_true_iff. unfold json.utf8. cbn [json.utf8_go].
  unfold json.rune_size. rewrite Hc. fold (json.utf8 r). by rewrite IH.
Qed.

Lemma is_ascii_app (a b : string) :
  json.is_ascii (a +:+ b) = json.is_ascii a && json.is_ascii b.
Proof using Type.
  induction a as [|c a IH]; [done|]. rewrite str_app_cons. cbn [json.is_ascii].
  by rewrite IH, andb_assoc.
Qed.

Lemma is_ascii_pretty_N_go (x : N) (s : string) :
  json.is_ascii (pretty_N_go x s) = json.is_ascii s.
Proof using Type.
  revert s. induction (N.lt_wf_0 x) as [x _ IH]; intros s.
  destruct (decide (x = 0)%N) as [->|Hx]; [done|].
  rewrite pretty_N_go_step by lia.
  rewrite IH by (apply N.div_lt; lia).
  unfold pretty_N_char. by repeat case_match.
Qed.

Lemma is_ascii_pretty_N (x : N) : json.is_ascii (pretty x) = true.
Proof using Type.
  unfold pretty, pretty_N. case_decide; [done|].
  by rewrite is_ascii_pretty_N_go.
Qed.

Lemma utf8_generateID (now : Time) :
  json.utf8 (generateID now) = generateID now.
Proof using Type.
  apply utf8_ascii. unfold generateID.
  destruct (UnixNano now) as [|p|p]; [done|..].
  - apply (is_ascii_pretty_N (Npos p)).
  - change (json.is_ascii ("-" +:+ pretty (Npos p)) = true).
    by rewrite is_ascii_app, (is_ascii_pretty_N (Npos p)).
Qed.

Lemma utf8_idem_list (l : list string) :
  json.utf8 <$> (json.utf8 <$> l) = json.utf8 <$> l.
Proof using Type.
  induction l as [|x l IH]; [done|]. cbn [fmap list_fmap].
  rewrite utf8_idem. f_equal. exact IH.
Qed.

(** Unmarshal after MarshalIndent gives the record with its strings as
    encoding/json leaves them. *)
Lemma Unmarshal_MarshalIndent (info : ImageInfo) (doc : json.Object) :
  json.MarshalIndent info = Some doc → json.Unmarshal doc = json.decoded info.
Proof using Type.
  unfold json.MarshalIndent. destruct (_ && _); [|done]. intros [= <-].
  unfold json.Unmarshal, json.decoded.
  cbn [json.k_id json.k_filename json.k_storagePath json.k_size json.k_width
       json.k_height json.k_format json.k_orientation json.k_tags
       json.k_createdAt json.k_expiresAt json.k_hasExpiry].
  by rewrite !utf8_idem, utf8_idem_list.
Qed.




Lemma decoded_idem (info : ImageInfo) :
  json.decoded (json.decoded info) = json.decoded info.
Proof using Type.
  unfold json.decoded.
  cbn [ID Filename StoragePath Size Width Height Format Orientation Tags
       CreatedAt ExpiresAt HasExpiry].
  by rewrite !utf8_idem, utf8_idem_list.
Qed.

End JsonFacts.

(** ** The file system *)

Section FSFacts.

Implicit Types (fs : FS) (p q dir : path) (n : string).

Lemma insert_sorted_Permutation {A} (leb : A → A → bool) x (l : list A) :
  insert_sorted leb x l ≡ₚ x :: l.
Proof.
  induction l as [|y l IH]; simpl; [done|].
  destruct (leb x y); [done|]. rewrite IH. apply Permutation_swap.
Qed.

Lemma sort_by_Permutation {A} (leb : A → A → bool) (l : list A) :
  sort_by leb l ≡ₚ l.
Proof.
  induction l as [|x l IH]; simpl; [done|].
  unfold sort_by in IH. by rewrite insert_sorted_Permutation, IH.
Qed.

Lemma child_of_Some dir p n : OS.child_of dir p = Some n ↔ p = dir ++ [n].
Proof.
  unfold OS.child_of. split.
  - case_bool_decide as H; [|done].
    destruct (drop (length dir) p) as [|m [|]] eqn:E; try done.
    intros [= ->]. by rewrite <- (take_drop (length dir) p), H, E.
  - intros ->. rewrite take_app_length, drop_app_length.
    by rewrite bool_decide_true.
Qed.

Lemma NoDup_omap_inj {A B} (f : A → option B) (l : list A) :
  (∀ x y z, f x = Some z → f y = Some z → x = y) →
  NoDup l → NoDup (omap f l).
Proof.
  intros Hinj. induction 1 as [|x l Hx Hl IH]; simpl; [constructor|].
  destruct (f x) as [z|] eqn:Hz; [|done].
  constructor; [|done].
  intros (y & Hy & Hfy)%list_elem_of_omap.
  by rewrite (Hinj _ _ _ Hz Hfy) in Hx.
Qed.

Lemma elem_of_file_names dir fs n :
  n ∈ OS.file_names dir fs ↔ is_Some (files fs !! (dir ++ [n])).
Proof.
  unfold OS.file_names. rewrite list_elem_of_omap. split.
  - intros (p & Hin & ->%child_of_Some).
    by apply elem_of_elements, elem_of_dom in Hin.
  - intros Hd. exists (dir ++ [n]). split; [|by apply child_of_Some].
    by apply elem_of_elements, elem_of_dom.
Qed.

Lemma NoDup_file_names dir fs : NoDup (OS.file_names dir fs).
Proof.
  apply NoDup_omap_inj; [|apply NoDup_elements].
  intros x y z ->%child_of_Some ->%child_of_Some. done.
Qed.

Lemma elem_of_Glob dir id fs p :
  p ∈ Glob dir id fs ↔
  ∃ n, p = dir ++ [n] ∧ Str.HasPrefix n (id +:+ ".") = true
       ∧ is_Some (files fs !! p).
Proof.
  unfold Glob. rewrite list_elem_of_fmap.
  setoid_rewrite (sort_by_Permutation _ _).
  setoid_rewrite list_elem_of_filter. setoid_rewrite elem_of_file_names.
  split.
  - intros (n & -> & Hn & Hf). eauto.
  - intros (n & -> & Hn & Hf). eauto.
Qed.

Lemma NoDup_Glob dir id fs : NoDup (Glob dir id fs).
Proof.
  unfold Glob. apply (NoDup_fmap_2 _).
  rewrite (sort_by_Permutation _ _).
  apply NoDup_filter, NoDup_file_names.
Qed.

Lemma Glob_nil dir id fs :
  Glob dir id fs = [] ↔
  ∀ n, Str.HasPrefix n (id +:+ ".") = true → files fs !! (dir ++ [n]) = None.
Proof.
  split.
  - intros HG n Hn. destruct (files fs !! (dir ++ [n])) eqn:E; [|done].
    assert (dir ++ [n] ∈ Glob dir id fs) as Hin
      by (apply elem_of_Glob; eauto 6).
    rewrite HG in Hin. by apply not_elem_of_nil in Hin.
  - intros H. destruct (Glob dir id fs) as [|p l] eqn:E; [done|].
    assert (p ∈ Glob dir id fs) as Hin by (rewrite E; left).
    apply elem_of_Glob in Hin as (n & -> & Hn & [d Hd]).
    specialize (H n Hn). congruence.
Qed.

Lemma elem_of_ReadDir dir fs entries e :
  ReadDir dir fs = Some entries → e ∈ entries → OS.IsDir e = false →
  is_Some (files fs !! (dir ++ [OS.Name e])).
Proof.
  unfold ReadDir. case_bool_decide; [|done]. intros [= <-] He Hd.
  rewrite (sort_by_Permutation _ _) in He.
  apply elem_of_app in He as [He|He]; apply list_elem_of_fmap in He
    as (n & -> & Hn); [|done].
  by apply elem_of_file_names.
Qed.

Lemma ReadDir_elem_of dir fs entries n :
  ReadDir dir fs = Some entries → is_Some (files fs !! (dir ++ [n])) →
  OS.mkDirEntry n false ∈ entries.
Proof.
  unfold ReadDir. case_bool_decide; [|done]. intros [= <-] Hn.
  rewrite (sort_by_Permutation _ _).
  apply elem_of_app. left. apply list_elem_of_fmap. exists n.
  split; [done|]. by apply elem_of_file_names.
Qed.

(** The entries of a listing that are files have distinct names. *)
Lemma NoDup_ReadDir dir fs entries :
  ReadDir dir fs = Some entries →
  NoDup (OS.Name <$> filter (λ e, OS.IsDir e = false) entries).
Proof.
  unfold ReadDir. case_bool_decide; [|done]. intros [= <-].
  rewrite (sort_by_Permutation _ _).
  rewrite filter_app, fmap_app.
  assert (∀ (b : bool) l,
    filter (λ e, OS.IsDir e = false) ((λ n, OS.mkDirEntry n b) <$> l)
    = if b then [] else (λ n, OS.mkDirEntry n b) <$> l) as Hf.
  { intros b l. induction l as [|n l IH]; [by destruct b|].
    rewrite fmap_cons. destruct b.
    - rewrite filter_cons_False by done. apply IH.
    - rewrite filter_cons_True by done. by rewrite IH. }
  rewrite !Hf, app_nil_r, <- list_fmap_compose.
  assert (∀ l : list string,
    (OS.Name ∘ (λ n, OS.mkDirEntry n false)) <$> l = l) as ->.
  { intros l. induction l as [|n l IH]; [done|]. by rewrite fmap_cons, IH. }
  apply NoDup_file_names.
Qed.

End FSFacts.

(** ** The operations of the backend *)

Section OpFacts.

Context (s : LocalStorage).
Implicit Types (fs : FS) (p q : path) (id : string).

Lemma str_app_inv_tail (a b r : string) : a +:+ r = b +:+ r → a = b.
Proof.
  intros H. rewrite <- (TrimSuffix_app a r), H. apply TrimSuffix_app.
Qed.

Lemma metadataPath_inj id id' : metadataPath s id = metadataPath s id' → id = id'.
Proof.
  unfold metadataPath. intros H%app_inv_head. injection H as H.
  by apply str_app_inv_tail in H.
Qed.

Lemma shrinks_refl P fs : shrinks P fs fs.
Proof. repeat split. by left. Qed.

Lemma shrinks_trans P fs1 fs2 fs3 :
  shrinks P fs1 fs2 → shrinks P fs2 fs3 → shrinks P fs1 fs3.
Proof.
  intros (Hd1 & Hr1 & H1) (Hd2 & Hr2 & H2). repeat split; [congruence..|].
  intros q. destruct (H2 q) as [E2|[? E2]]; [|by right].
  destruct (H1 q) as [E1|[? E1]]; [left | right]; by rewrite E2.
Qed.

Lemma shrinks_mono (P Q : path → Prop) fs fs' :
  (∀ q, P q → Q q) → shrinks P fs fs' → shrinks Q fs fs'.
Proof.
  intros HPQ (Hd & Hr & H). repeat split; [done..|].
  intros q. destruct (H q) as [?|[? ?]]; auto.
Qed.


Lemma shrinks_frame P fs fs' q :
  shrinks P fs fs' → ¬ P q → files fs' !! q = files fs !! q.
Proof. intros (_ & _ & H) Hq. destruct (H q) as [?|[? _]]; done. Qed.

Lemma Remove_shrinks p fs : shrinks (λ q, q = p) fs (OS.Remove p fs).1.
Proof.
  unfold OS.Remove. destruct (files fs !! p) eqn:E; [|apply shrinks_refl].
  case_bool_decide; [apply shrinks_refl|]. repeat split. simpl. intros q.
  destruct (decide (q = p)) as [->|Hne].
  - right. by rewrite lookup_delete_eq.
  - left. by rewrite lookup_delete_ne.
Qed.

(** A file that exists and may be removed is gone after os.Remove; so is one
    that did not exist. *)
Lemma Remove_gone p fs :
  p ∉ readonly fs → files (OS.Remove p fs).1 !! p = None.
Proof.
  intros Hp. unfold OS.Remove. destruct (files fs !! p) eqn:E; [|done].
  rewrite bool_decide_false by done. simpl. apply lookup_delete_eq.
Qed.

Lemma resolvePath_owned id f o fs p :
  resolvePath s id f o fs = Ok p → owned s id p.
Proof.
  unfold resolvePath. case_bool_decide as Hf.
  - destruct (Glob _ id fs) as [|p' l] eqn:E; [done|]. intros [= <-].
    assert (p' ∈ Glob (basePath s ++ ["original"; o]) id fs) as Hin
      by (rewrite E; left).
    apply elem_of_Glob in Hin as (n & -> & Hn & _).
    right; left. exists o, n. by rewrite <- app_assoc.
  - intros [= <-]. right; right. eauto.
Qed.

Lemma Delete_shrinks id f o fs :
  shrinks (owned s id) fs (Delete s id f o fs).1.
Proof.
  unfold Delete. destruct (resolvePath s id f o fs) as [p|e] eqn:E;
    [|apply shrinks_refl].
  apply resolvePath_owned in E.
  pose proof (Remove_shrinks p fs) as H.
  destruct (OS.Remove p fs) as [fs1 [e|]]; simpl in *.
  - destruct (OS.IsNotExist e); simpl;
      (eapply shrinks_mono; [|exact H]); by intros ? ->.
  - (eapply shrinks_mono; [|exact H]); by intros ? ->.
Qed.

Lemma DeleteInfo_shrinks id fs :
  shrinks (owned s id) fs (DeleteInfo s id fs).1.
Proof.
  unfold DeleteInfo.
  pose proof (Remove_shrinks (metadataPath s id) fs) as H.
  destruct (OS.Remove _ fs) as [fs1 [e|]]; simpl in *.
  - destruct (OS.IsNotExist e); simpl;
      (eapply shrinks_mono; [|exact H]); intros ? ->; by left.
  - (eapply shrinks_mono; [|exact H]); intros ? ->; by left.
Qed.

Lemma purge_shrinks id o fs : shrinks (owned s id) fs (purge s id o fs).
Proof.
  unfold purge.
  eapply shrinks_trans; [|apply DeleteInfo_shrinks].
  eapply shrinks_trans; [|apply Delete_shrinks].
  eapply shrinks_trans; [|apply Delete_shrinks].
  apply Delete_shrinks.
Qed.

Lemma GetInfo_ext id fs fs' :
  files fs' !! metadataPath s id = files fs !! metadataPath s id →
  GetInfo s id fs' = GetInfo s id fs.
Proof. unfold GetInfo, OS.ReadFile. by intros ->. Qed.

Lemma GetInfo_Ok id fs info :
  GetInfo s id fs = Ok info
  ↔ ∃ doc, files fs !! metadataPath s id = Some (Json doc)
           ∧ json.Unmarshal doc = info.
Proof.
  unfold GetInfo, OS.ReadFile.
  destruct (files fs !! metadataPath s id) as [[b|doc]|];
    cbn [OS.IsNotExist]; split; try done.
  - by intros (doc & [=] & _).
  - intros [= <-]. by exists doc.
  - by intros (doc' & [= <-] & <-).
  - by intros (doc & [=] & _).
Qed.

Lemma GetInfo_doc id fs doc :
  files fs !! metadataPath s id = Some (Json doc) →
  GetInfo s id fs = Ok (json.Unmarshal doc).
Proof. intros H. apply GetInfo_Ok. by exists doc. Qed.


Lemma GetInfo_NotFound id fs :
  GetInfo s id fs = Err ErrFileNotFound ↔ files fs !! metadataPath s id = None.
Proof.
  unfold GetInfo, OS.ReadFile.
  destruct (files fs !! metadataPath s id) as [[b|i]|]; simpl; naive_solver.
Qed.

(** The metadata file of an id belongs to that id only. *)
Lemma owned_metadataPath id id' : owned s id' (metadataPath s id) → id' = id.
Proof.
  intros [H|[(o & n & H & _)|(f & o & _ & H)]].
  - by apply metadataPath_inj in H.
  - unfold metadataPath in H. by apply app_inv_head in H.
  - unfold metadataPath in H. by apply app_inv_head in H.
Qed.

End OpFacts.

(** ** The sweep *)

Section SweepFacts.

Context (s : LocalStorage) (now : Time).
Implicit Types (fs : FS) (p q : path) (id : string) (e : OS.DirEntry).

Lemma CleanExpired_step_false fs c e :
  expired_entry s now fs e = false →
  CleanExpired_step s now (fs, c) e = (fs, c).
Proof.
  unfold expired_entry, CleanExpired_step.
  destruct (OS.IsDir e); [done|]. cbn [negb andb orb].
  destruct (Str.HasSuffix (OS.Name e) ".json"); [|done]. cbn [negb andb orb].
  destruct (GetInfo s _ fs) as [info|]; [|done].
  by intros ->.
Qed.

Lemma CleanExpired_step_true fs c e :
  expired_entry s now fs e = true →
  ∃ info,
    OS.IsDir e = false
    ∧ OS.Name e = Str.TrimSuffix (OS.Name e) ".json" +:+ ".json"
    ∧ GetInfo s (Str.TrimSuffix (OS.Name e) ".json") fs = Ok info
    ∧ expired now info = true
    ∧ CleanExpired_step s now (fs, c) e
      = (purge s (Str.TrimSuffix (OS.Name e) ".json") (Orientation info) fs,
         S c).
Proof.
  unfold expired_entry, CleanExpired_step.
  destruct (OS.IsDir e); [done|]. cbn [negb andb orb].
  destruct (Str.HasSuffix (OS.Name e) ".json") eqn:Hs; [|done].
  cbn [negb andb orb].
  destruct (GetInfo s _ fs) as [info|]; [|done].
  intros Hexp. exists info. rewrite Hexp.
  by rewrite (TrimSuffix_HasSuffix _ _ Hs).
Qed.

Lemma CleanExpired_Some fs entries :
  ReadDir (basePath s ++ ["metadata"]) fs = Some entries →
  CleanExpired s now fs
  = ((foldl (CleanExpired_step s now) (fs, O) entries).1,
     Ok (foldl (CleanExpired_step s now) (fs, O) entries).2).
Proof.
  intros H. unfold CleanExpired. rewrite H.
  by destruct (foldl _ _ entries).
Qed.

Lemma CleanExpired_None fs :
  ReadDir (basePath s ++ ["metadata"]) fs = None →
  CleanExpired s now fs = (fs, Err ErrReadDir).
Proof. intros H. unfold CleanExpired. by rewrite H. Qed.

(** The loop only removes files. *)
Lemma sweep_shrinks entries fs c :
  shrinks (λ _, True) fs (foldl (CleanExpired_step s now) (fs, c) entries).1.
Proof.
  revert fs c. induction entries as [|e l IH]; intros fs c; cbn [foldl].
  { apply shrinks_refl. }
  destruct (expired_entry s now fs e) eqn:He.
  - apply CleanExpired_step_true with (c := c) in He
      as (info & _ & _ & _ & _ & ->).
    eapply shrinks_trans; [|apply IH].
    eapply shrinks_mono; [|apply purge_shrinks]. done.
  - rewrite (CleanExpired_step_false _ _ _ He). apply IH.
Qed.


Lemma filter_ext_in {A} (P Q : A → Prop) `{!∀ x, Decision (P x)}
    `{!∀ x, Decision (Q x)} (l : list A) :
  (∀ x, x ∈ l → P x ↔ Q x) → filter P l = filter Q l.
Proof.
  induction l as [|x l IH]; intros Hpq; [done|].
  rewrite !filter_cons.
  rewrite IH by (intros y Hy; apply Hpq; by right).
  destruct (decide (P x)) as [HP|HP], (decide (Q x)) as [HQ|HQ]; try done.
  - destruct HQ. apply Hpq; [left|done].
  - destruct HP. apply Hpq; [left|done].
Qed.

(** The count is the number of entries that the initial state classifies as
    expired: what the deletions achieve does not enter. *)
Lemma sweep_count entries fs c :
  NoDup (OS.Name <$> filter (λ e, OS.IsDir e = false) entries) →
  (foldl (CleanExpired_step s now) (fs, c) entries).2
  = c + length (filter (λ e, expired_entry s now fs e = true) entries).
Proof.
  revert fs c. induction entries as [|e l IH]; intros fs c Hnd; cbn [foldl]; [simpl; lia|].
  rewrite filter_cons.
  destruct (expired_entry s now fs e) eqn:He.
  - rewrite decide_True by done.
    apply CleanExpired_step_true with (c := c) in He
      as (info & Hdir & Hname & Hg & Hexp & ->).
    set (id := Str.TrimSuffix (OS.Name e) ".json") in *.
    rewrite filter_cons_True, fmap_cons in Hnd by done.
    apply NoDup_cons in Hnd as [Hnotin Hnd].
    rewrite IH by done. cbn [length].
    rewrite (filter_ext_in _ (λ e, expired_entry s now fs e = true)); [lia|].
    intros e' He'. unfold expired_entry.
    destruct (OS.IsDir e') eqn:Hd'; [done|].
    destruct (Str.HasSuffix (OS.Name e') ".json") eqn:Hs'; [|done].
    cbn [negb andb].
    rewrite (GetInfo_ext s _ fs (purge s id (Orientation info) fs)); [done|].
    apply (shrinks_frame _ _ _ _ (purge_shrinks s id (Orientation info) fs)).
    intros Hown%owned_metadataPath. destruct Hnotin.
    apply list_elem_of_fmap. exists e'. split.
    + rewrite Hname, <- (TrimSuffix_HasSuffix _ _ Hs'). by rewrite Hown.
    + by apply list_elem_of_filter.
  - rewrite decide_False by done.
    rewrite (CleanExpired_step_false _ _ _ He). apply IH.
    destruct (OS.IsDir e) eqn:Hd.
    + by rewrite filter_cons_False in Hnd by (by rewrite Hd).
    + rewrite filter_cons_True, fmap_cons in Hnd by done.
      by apply NoDup_cons in Hnd as [_ ?].
Qed.

End SweepFacts.

(** ** Items without expiry *)

Section Unexpiring.

Context (s : LocalStorage).




End Unexpiring.




(** ** The count of a sweep *)

(** C10. The count CleanExpired returns is the number of entries of the
    metadata directory that it classifies as expired.  Each of them adds
    one, whatever the three variant deletions and the metadata deletion
    return: their errors are dropped and the loop goes on, so the count is
    not the number of items that were removed. *)
Theorem CleanExpired_counts_expired_entries
    (s : LocalStorage) (now : Time) (fs : FS) (entries : list OS.DirEntry) :
  ReadDir (basePath s ++ ["metadata"]) fs = Some entries →
  (CleanExpired s now fs).2
  = Ok (length (filter (λ e, expired_entry s now fs e = true) entries)).
Proof.
  intros HR. rewrite (CleanExpired_Some _ _ _ _ HR). simpl. f_equal.
  apply (sweep_count s now entries fs 0), (NoDup_ReadDir _ _ _ HR).
Qed.

(** On a file system that refuses to remove the metadata file the expired
    item is counted and stays in place. *)
Lemma CleanExpired_counts_expired_entries_witness :
  let s := demo.store in
  let fs := demo.two_items_locked in
  let entries :=
    [OS.mkDirEntry (generateID (demo.t 0) +:+ ".json") false;
     OS.mkDirEntry (generateID (demo.t 5000) +:+ ".json") false] in
  ReadDir (basePath s ++ ["metadata"]) fs = Some entries
  ∧ (CleanExpired s (demo.t 9000) fs).2
    = Ok (length (filter (λ e, expired_entry s (demo.t 9000) fs e = true)
                         entries))
  ∧ (CleanExpired s (demo.t 9000) fs).2 = Ok 1
  ∧ GetInfo s (ID demo.expiring) (CleanExpired s (demo.t 9000) fs).1
    = Ok demo.expiring.
Proof.
  intros s fs entries.
  assert (ReadDir (basePath s ++ ["metadata"]) fs = Some entries) as HR
    by (vm_compute; reflexivity).
  split; [exact HR|]. split.
  - exact (CleanExpired_counts_expired_entries s (demo.t 9000) fs entries HR).
  - split; vm_compute; reflexivity.
Defined.

(** ** Expired items *)

Section Expired.

Context (s : LocalStorage).
Implicit Types (fs : FS) (id : string) (o : ImageOrientation).










End Expired.


Lemma ReadDir_is_Some (dir : path) (fs : FS) :
  dir ∈ dirs fs → ∃ entries, ReadDir dir fs = Some entries.
Proof. intros H. unfold ReadDir. rewrite bool_decide_true by done. eauto. Qed.




Lemma pair_snd_eq {A B} (x : A * B) (b : B) : x.2 = b → x = (x.1, b).
Proof. destruct x. by intros <-. Qed.

(** ** Writing: Save and SaveInfo *)

Section Writes.

Context (s : LocalStorage).
Implicit Types (fs : FS) (p q : path) (id : string).

Lemma existsb_false {A} (f : A → bool) (l : list A) :
  existsb f l = false ↔ ∀ x, x ∈ l → f x = false.
Proof using Type.
  induction l as [|y l IH]; simpl.
  - split; [intros _ x Hx; by apply not_elem_of_nil in Hx | done].
  - rewrite orb_false_iff, IH. split.
    + intros [Hy Hl] x [->|Hx]%elem_of_cons; auto.
    + intros H. split; [apply H; left | intros x Hx; apply H; by right].
Qed.

Lemma MkdirAll_Ok p fs fs1 :
  OS.MkdirAll p fs = (fs1, None) →
  fs1 = {| files := files fs;
           dirs := list_to_set (OS.ancestors p) ∪ dirs fs;
           readonly := readonly fs |}
  ∧ ∀ q, q ∈ OS.ancestors p → files fs !! q = None.
Proof using Type.
  unfold OS.MkdirAll.
  destruct (existsb _ (OS.ancestors p)) eqn:E; [done|].
  intros [= <-]. split; [done|]. intros q Hq.
  pose proof (proj1 (existsb_false _ _) E q Hq) as H.
  apply bool_decide_eq_false in H.
  destruct (files fs !! q); [by destruct H|done].
Qed.

Lemma MkdirAll_Err p fs fs1 e :
  OS.MkdirAll p fs = (fs1, Some e) → fs1 = fs.
Proof using Type.
  unfold OS.MkdirAll. destruct (existsb _ (OS.ancestors p)); by intros [= <-].
Qed.



Lemma WriteFile_Ok p d fs fs1 :
  OS.WriteFile p d fs = (fs1, None) →
  fs1 = set_files fs (<[p := d]> (files fs))
  ∧ (p ∉ readonly fs) ∧ (p ∉ dirs fs).
Proof using Type.
  unfold OS.WriteFile. repeat case_bool_decide; try done. by intros [= <-].
Qed.

Lemma WriteFile_Err p d fs fs1 e :
  OS.WriteFile p d fs = (fs1, Some e) → fs1 = fs.
Proof using Type.
  unfold OS.WriteFile. repeat case_bool_decide; by intros [= <-].
Qed.

(** What a successful Save has done: the id is the one generated from the
    clock, and the one file written is the variant's. *)
Lemma Save_Ok now reader filename f o fs fs' id :
  Save s now reader filename f o fs = (fs', Ok id) →
  id = generateID now
  ∧ files fs'
    = <[basePath s ++ variantDir f o ++ [id +:+ variantExt filename f]
        := Blob reader]> (files fs)
  ∧ readonly fs' = readonly fs
  ∧ dirs fs'
    = list_to_set (OS.ancestors (basePath s ++ variantDir f o)) ∪ dirs fs.
Proof using Type.
  unfold Save.
  destruct (OS.MkdirAll _ fs) as [fs1 [e|]] eqn:Em; [done|].
  apply MkdirAll_Ok in Em as [-> _].
  destruct (OS.WriteFile _ _ _) as [fs2 [e|]] eqn:Ew; [done|].
  apply WriteFile_Ok in Ew as (-> & _ & _). intros [= <- <-].
  cbn [files dirs readonly set_files]. by rewrite <- app_assoc.
Qed.

Lemma SaveInfo_Ok info fs fs' :
  SaveInfo s info fs = (fs', None) →
  ∃ doc,
    json.MarshalIndent info = Some doc
    ∧ files fs' = <[metadataPath s (ID info) := Json doc]> (files fs)
    ∧ readonly fs' = readonly fs
    ∧ dirs fs'
      = list_to_set (OS.ancestors (basePath s ++ ["metadata"])) ∪ dirs fs.
Proof using Type.
  unfold SaveInfo.
  destruct (OS.MkdirAll _ fs) as [fs1 [e|]] eqn:Em; [done|].
  apply MkdirAll_Ok in Em as [-> _].
  destruct (json.MarshalIndent info) as [doc|]; [|done].
  destruct (OS.WriteFile _ _ _) as [fs2 [e|]] eqn:Ew; [done|].
  apply WriteFile_Ok in Ew as (-> & _ & _). intros [= <-].
  exists doc. split; [done|].
  cbn [files dirs readonly set_files]. unfold metadataPath.
  by rewrite <- app_assoc.
Qed.

(** After a successful SaveInfo, GetInfo returns the record as
    encoding/json reads it back. *)
Lemma SaveInfo_GetInfo info fs fs' :
  SaveInfo s info fs = (fs', None) →
  GetInfo s (ID info) fs' = Ok (json.decoded info).
Proof using Type.
  intros (doc & HM & Hf & _)%SaveInfo_Ok.
  rewrite <- (Unmarshal_MarshalIndent info doc HM).
  apply GetInfo_doc. rewrite Hf. apply lookup_insert_eq.
Qed.



End Writes.




(** ** Missing variants *)



(** ** The description step of the converter *)

(** C7. GetImageInfo reports portrait exactly when the height is greater
    than the width, and landscape otherwise: 100x50 is landscape, 50x100 is
    portrait, and the square 100x100 is landscape. *)
Theorem GetImageInfo_orientation
    (bounds : converter.Rectangle) (format : string) :
  let info := converter.GetImageInfo bounds format in
  (converter.Orientation info = "portrait"
   ↔ (converter.Height info > converter.Width info)%Z)
  ∧ (converter.Orientation info = "landscape"
     ↔ (converter.Height info ≤ converter.Width info)%Z)
  ∧ converter.Width info = converter.Dx bounds
  ∧ converter.Height info = converter.Dy bounds
  ∧ converter.Orientation
      (converter.GetImageInfo (converter.mkRectangle 0 0 100 50) format)
    = "landscape"
  ∧ converter.Orientation
      (converter.GetImageInfo (converter.mkRectangle 0 0 50 100) format)
    = "portrait"
  ∧ converter.Orientation
      (converter.GetImageInfo (converter.mkRectangle 0 0 100 100) format)
    = "landscape".
Proof.
  cbn zeta. unfold converter.GetImageInfo.
  cbn [converter.Orientation converter.Height converter.Width].
  split; [|split; [|by repeat split]].
  - destruct (Z.gtb_spec (converter.Dy bounds) (converter.Dx bounds));
      split; (done || lia).
  - destruct (Z.gtb_spec (converter.Dy bounds) (converter.Dx bounds));
      split; (done || lia).
Qed.

(** ** Tags *)



(** ** URLs *)

(** C9. GetURL is a function of the id, the format and the orientation
    alone: it reads neither the file system nor the clock nor the base path
    of the store it is called on, it returns a string for every input, and
    that string lies under /static/images/. *)
Theorem GetURL_pure
    (s s' : LocalStorage) (id : string) (f : ImageFormat)
    (o : ImageOrientation) :
  GetURL s id f o = GetURL s' id f o
  ∧ Str.HasPrefix (GetURL s id f o) "/static/images/" = true.
Proof.
  split; [done|]. unfold GetURL. case_bool_decide.
  - apply (HasPrefix_app "/static/images/" ("original/" +:+ o +:+ "/" +:+ id)).
  - apply HasPrefix_app.
Qed.

(** ** Stored paths and URLs *)

(** C3, as the code has it.  A successful Save stores the variant at the
    relative path [<dir>/<orientation>/<id><ext>].  For a derived format
    GetURL is /static/images/ followed by exactly that path.  For the
    original GetURL stops at the id: the stored path is the URL followed by
    the extension of the uploaded file name. *)
Theorem GetURL_mirrors_Save
    (s : LocalStorage) (now : Time) (reader : list byte) (filename : string)
    (f : ImageFormat) (o : ImageOrientation) (fs fs' : FS) (id : string) :
  Save s now reader filename f o fs = (fs', Ok id) →
  files fs' !! (basePath s ++ variantDir f o ++ [id +:+ variantExt filename f])
  = Some (Blob reader)
  ∧ "/static/images/"
      +:+ Str.Join (variantDir f o ++ [id +:+ variantExt filename f]) "/"
    = GetURL s id f o
      +:+ (if bool_decide (f = Original) then Str.Ext filename else "").
Proof.
  intros (_ & Hf & _)%Save_Ok. split.
  - rewrite Hf. apply lookup_insert_eq.
  - unfold variantDir, variantExt, GetURL. case_bool_decide as Ho.
    + rewrite bool_decide_false by (by intros []).
      cbn [app Str.Join]. by rewrite !str_app_assoc.
    + rewrite bool_decide_true by done.
      cbn [app Str.Join]. by rewrite str_app_nil_r.
Qed.

Lemma GetURL_mirrors_Save_witness :
  let s := demo.store in
  let id := generateID (demo.t 0) in
  let fs' := (Save s (demo.t 0) [x01] "photo.jpg" Original "landscape"
                demo.empty).1 in
  files fs' !! (basePath s ++ ["original"; "landscape"; id +:+ ".jpg"])
  = Some (Blob [x01])
  ∧ "/static/images/original/landscape/" +:+ id +:+ ".jpg"
    = GetURL s id Original "landscape" +:+ ".jpg".
Proof.
  intros s id fs'.
  assert (Save s (demo.t 0) [x01] "photo.jpg" Original "landscape" demo.empty
          = (fs', Ok id)) as HS
    by (apply pair_snd_eq; vm_compute; reflexivity).
  exact (GetURL_mirrors_Save s (demo.t 0) [x01] "photo.jpg" Original
           "landscape" demo.empty fs' id HS).
Defined.

(** The claim as the spec states it fails for the original: Save stores
    [<id>.jpg], and the URL ends with the id. *)
Lemma GetURL_original_counterexample :
  ¬ (∀ (s : LocalStorage) (now : Time) (reader : list byte)
       (filename : string) (f : ImageFormat) (o : ImageOrientation)
       (fs fs' : FS) (id : string),
       Save s now reader filename f o fs = (fs', Ok id) →
       GetURL s id f o
       = "/static/images/"
           +:+ Str.Join (variantDir f o ++ [id +:+ variantExt filename f]) "/").
Proof.
  intros H.
  specialize (H demo.store (demo.t 0) [x01] "photo.jpg" Original "landscape"
                demo.empty _ (generateID (demo.t 0))
                (pair_snd_eq _ _ eq_refl)).
  vm_compute in H. discriminate H.
Qed.

(** ** The upload *)

Lemma variantDir_WebP (o : ImageOrientation) : variantDir WebP o = [WebP; o].
Proof. unfold variantDir. by rewrite bool_decide_false. Qed.

Lemma variantExt_WebP (filename : string) : variantExt filename WebP = ".webp".
Proof. unfold variantExt. by rewrite bool_decide_true. Qed.

(** C1, on the code.  The upload calls Save twice and Save generates an id
    on every call.  When the clock moves between the two calls, the WebP
    file is stored under the second id: the metadata record carries the
    first id, Get for the WebP variant of that id fails with the not-found
    error, and the WebP bytes are found under the second id only. *)
Theorem UploadHandler_webp_under_second_id
    (s : LocalStorage) (file : FileHeader) (original data : list byte)
    (info : converter.ImageInfo) (t1 t2 t3 : Time) (fs fs' : FS)
    (url : string) :
  let o := converter.Orientation info in
  UploadHandler_save s file original data info t1 t2 t3 fs = (fs', Ok url) →
  UnixNano t1 ≠ UnixNano t2 →
  files fs !! (basePath s ++ [WebP; o; generateID t1 +:+ ".webp"]) = None →
  (∃ record, GetInfo s (generateID t1) fs' = Ok record
             ∧ ID record = generateID t1)
  ∧ Get s (generateID t1) WebP o fs' = Err ErrFileNotFound
  ∧ Get s (generateID t2) WebP o fs' = Ok (Blob data).
Proof.
  intros o. unfold UploadHandler_save. fold o.
  destruct (Save s t1 _ _ Original o fs) as [fs1 [id1|e]] eqn:S1; [|done].
  destruct (Save s t2 _ _ WebP o fs1) as [fs2 [id2|e]] eqn:S2; [|done].
  destruct (SaveInfo s _ fs2) as [fs3 [e|]] eqn:S3; [done|].
  intros [= <- _] Hclock Hfree.
  apply Save_Ok in S1 as (-> & Hf1 & _). apply Save_Ok in S2 as (-> & Hf2 & _).
  pose proof (SaveInfo_GetInfo _ _ _ _ S3) as HG3. cbn [ID] in HG3.
  apply SaveInfo_Ok in S3 as (doc & _ & Hf3 & _). cbn [ID] in Hf3.
  rewrite variantDir_WebP, variantExt_WebP in Hf2. cbn [app] in Hf2.
  assert (variantDir Original o = ["original"; o]) as Hd by done.
  rewrite Hd in Hf1. cbn [app] in Hf1.
  assert (∀ id, Get s id WebP o fs3
                = match files fs3 !! (basePath s ++ [WebP; o; id +:+ ".webp"])
                  with Some d => Ok d | None => Err ErrFileNotFound end)
    as HGet.
  { intros id. unfold Get, resolvePath, OS.ReadFile.
    rewrite bool_decide_false by done.
    change ("." +:+ Str.ToLower WebP) with ".webp".
    by destruct (files fs3 !! _). }
  split; [|split].
  - eexists. split; [exact HG3|]. apply utf8_generateID.
  - rewrite HGet, Hf3, lookup_insert_ne, Hf2, lookup_insert_ne, Hf1,
      lookup_insert_ne, Hfree; [done|..].
    + intros H%app_inv_head. discriminate H.
    + intros H%app_inv_head. injection H as H.
      apply str_app_inv_tail, generateID_inj in H. by destruct Hclock.
    + unfold metadataPath. intros H%app_inv_head. discriminate H.
  - rewrite HGet, Hf3, lookup_insert_ne, Hf2, lookup_insert_eq; [done|].
    unfold metadataPath. intros H%app_inv_head. discriminate H.
Qed.

Lemma UploadHandler_webp_under_second_id_witness :
  let s := demo.store in
  (∃ record, GetInfo s (generateID (demo.t 0)) demo.uploaded = Ok record
             ∧ ID record = generateID (demo.t 0))
  ∧ Get s (generateID (demo.t 0)) WebP "landscape" demo.uploaded
    = Err ErrFileNotFound
  ∧ Get s (generateID (demo.t 1000)) WebP "landscape" demo.uploaded
    = Ok (Blob [x09]).
Proof.
  intros s.
  apply (UploadHandler_webp_under_second_id s demo.file [x01; x02; x03] [x09]
           demo.info (demo.t 0) (demo.t 1000) (demo.t 2000) demo.empty
           demo.uploaded
           (GetURL s (generateID (demo.t 0)) Original "landscape")).
  - apply pair_snd_eq. vm_compute. reflexivity.
  - vm_compute. discriminate.
  - vm_compute. reflexivity.
Defined.

(** * Further properties of the backend *)

(** ** List *)

Section Listing.

Context (s : LocalStorage).
Implicit Types (fs : FS) (id : string) (e : OS.DirEntry).

Lemma List_step_listed fs images e :
  List_step s fs images e = images ++ option_list (listed s fs e).
Proof using Type.
  unfold List_step, listed.
  destruct (OS.IsDir e || negb (Str.HasSuffix (OS.Name e) ".json"));
    [by rewrite app_nil_r|].
  destruct (GetInfo s _ fs); [done | by rewrite app_nil_r].
Qed.

Lemma List_foldl fs images entries :
  foldl (List_step s fs) images entries = images ++ omap (listed s fs) entries.
Proof using Type.
  revert images. induction entries as [|e l IH]; intros images; cbn [foldl].
  { by rewrite app_nil_r. }
  rewrite IH, List_step_listed. cbn [omap list_omap].
  destruct (listed s fs e); simpl; by rewrite <- app_assoc.
Qed.

Lemma listed_Some fs e info :
  listed s fs e = Some info ↔
  OS.IsDir e = false
  ∧ OS.Name e = Str.TrimSuffix (OS.Name e) ".json" +:+ ".json"
  ∧ GetInfo s (Str.TrimSuffix (OS.Name e) ".json") fs = Ok info.
Proof using Type.
  unfold listed. destruct (OS.IsDir e); cbn [orb].
  { split; [done | by intros [? _]]. }
  destruct (Str.HasSuffix (OS.Name e) ".json") eqn:Hs; cbn [negb].
  - rewrite (TrimSuffix_HasSuffix _ _ Hs).
    destruct (GetInfo s _ fs) as [info'|err].
    + split; [by intros [= ->] | by intros (_ & _ & [= ->])].
    + split; [done | by intros (_ & _ & ?)].
  - split; [done|]. intros (_ & Hn & _). rewrite Hn, HasSuffix_app in Hs. done.
Qed.

Lemma List_Ok fs entries :
  ReadDir (basePath s ++ ["metadata"]) fs = Some entries →
  List s fs = Ok (omap (listed s fs) entries).
Proof using Type.
  intros HR. unfold List. rewrite HR. by rewrite List_foldl.
Qed.


Lemma dir_in_ancestors (p : path) : p ∈ OS.ancestors p.
Proof using Type.
  unfold OS.ancestors. apply list_elem_of_fmap. exists (length p). split.
  - by rewrite firstn_all.
  - apply elem_of_seq. lia.
Qed.

End Listing.





(** ** The invariant of the metadata directory *)

Section Keyed.

Context (s : LocalStorage).
Implicit Types (fs : FS) (id : string).

Lemma keyed_files fs fs' : files fs' = files fs → keyed s fs → keyed s fs'.
Proof using Type.
  intros Hf Hk id info Hg. apply (Hk id info).
  rewrite <- Hg. symmetry. apply GetInfo_ext. by rewrite Hf.
Qed.


Lemma keyed_insert_Json fs fs' info doc :
  files fs' = <[metadataPath s (ID info) := Json doc]> (files fs) →
  json.MarshalIndent info = Some doc →
  json.utf8 (ID info) = ID info →
  keyed s fs → keyed s fs'.
Proof using Type.
  intros Hf HM Hid Hk id info' Hg.
  destruct (decide (metadataPath s (ID info) = metadataPath s id)) as [E|E].
  - apply GetInfo_Ok in Hg as (doc' & Hd & <-).
    rewrite Hf, E, lookup_insert_eq in Hd. injection Hd as <-.
    rewrite (Unmarshal_MarshalIndent info doc HM).
    apply metadataPath_inj in E as <-. exact Hid.
  - apply (Hk id info'). rewrite <- Hg. symmetry. apply GetInfo_ext.
    rewrite Hf. by apply lookup_insert_ne.
Qed.

Lemma keyed_insert_Blob fs fs' p bytes :
  files fs' = <[p := Blob bytes]> (files fs) → keyed s fs → keyed s fs'.
Proof using Type.
  intros Hf Hk id info' Hg.
  destruct (decide (p = metadataPath s id)) as [E|E].
  - apply GetInfo_Ok in Hg as (doc & Hd & _).
    by rewrite Hf, E, lookup_insert_eq in Hd.
  - apply (Hk id info'). rewrite <- Hg. symmetry. apply GetInfo_ext.
    rewrite Hf. by apply lookup_insert_ne.
Qed.

Lemma SaveInfo_Err info fs fs' e :
  SaveInfo s info fs = (fs', Some e) → files fs' = files fs.
Proof using Type.
  unfold SaveInfo.
  destruct (OS.MkdirAll _ fs) as [fs1 [e1|]] eqn:Em.
  { apply MkdirAll_Err in Em as ->. by intros [= <- _]. }
  apply MkdirAll_Ok in Em as [-> _].
  destruct (json.MarshalIndent info) as [doc|]; [|by intros [= <- _]].
  destruct (OS.WriteFile _ _ _) as [fs2 [e2|]] eqn:Ew; [|done].
  apply WriteFile_Err in Ew as ->. by intros [= <- _].
Qed.

Lemma Save_Err now reader filename f o fs fs' e :
  Save s now reader filename f o fs = (fs', Err e) → files fs' = files fs.
Proof using Type.
  unfold Save.
  destruct (OS.MkdirAll _ fs) as [fs1 [e1|]] eqn:Em.
  { apply MkdirAll_Err in Em as ->. by intros [= <- _]. }
  apply MkdirAll_Ok in Em as [-> _].
  destruct (OS.WriteFile _ _ _) as [fs2 [e2|]] eqn:Ew; [|done].
  apply WriteFile_Err in Ew as ->. by intros [= <- _].
Qed.

Lemma keyed_SaveInfo info fs :
  json.utf8 (ID info) = ID info →
  keyed s fs → keyed s (SaveInfo s info fs).1.
Proof using Type.
  intros Hid. destruct (SaveInfo s info fs) as [fs' [e|]] eqn:HS; cbn [fst].
  - apply keyed_files, (SaveInfo_Err _ _ _ _ HS).
  - apply SaveInfo_Ok in HS as (doc & HM & Hf & _).
    by apply (keyed_insert_Json _ _ _ _ Hf HM).
Qed.

Lemma keyed_Save now reader filename f o fs :
  keyed s fs → keyed s (Save s now reader filename f o fs).1.
Proof using Type.
  destruct (Save s now reader filename f o fs) as [fs' [id|e]] eqn:HS;
    cbn [fst].
  - apply Save_Ok in HS as (_ & Hf & _). apply (keyed_insert_Blob _ _ _ _ Hf).
  - apply keyed_files, (Save_Err _ _ _ _ _ _ _ _ HS).
Qed.


Lemma keyed_UploadHandler_save file original data info t1 t2 t3 fs :
  keyed s fs →
  keyed s (UploadHandler_save s file original data info t1 t2 t3 fs).1.
Proof using Type.
  intros Hk. unfold UploadHandler_save.
  pose proof (keyed_Save t1 original (fh_Filename file) Original
                (converter.Orientation info) fs Hk) as H1.
  destruct (Save s t1 _ _ Original _ fs) as [fs1 [id1|e]] eqn:S1; [|done].
  apply Save_Ok in S1 as (-> & _).
  cbn [fst] in H1.
  pose proof (keyed_Save t2 data (fh_Filename file) WebP
                (converter.Orientation info) fs1 H1) as H2.
  destruct (Save s t2 _ _ WebP _ fs1) as [fs2 [id2|e]]; [|done].
  cbn [fst] in H2.
  match goal with
  | |- context [SaveInfo s ?i fs2] =>
      pose proof (keyed_SaveInfo i fs2 (utf8_generateID t1) H2) as H3
  end.
  by destruct (SaveInfo s _ fs2) as [fs3 [e|]].
Qed.



End Keyed.



Lemma keyed_no_files (s : LocalStorage) (fs : FS) : files fs = ∅ → keyed s fs.
Proof.
  intros Hf id info (doc & Hg & _)%GetInfo_Ok.
  by rewrite Hf, lookup_empty in Hg.
Qed.

Lemma demo_keyed_two_items : keyed demo.store demo.two_items.
Proof.
  change (keyed demo.store
    (SaveInfo demo.store demo.expiring
       (Save demo.store (demo.t 5000) [x06] "old.png" WebP "portrait"
          (Save demo.store (demo.t 5000) [x04; x05] "old.png" Original
             "portrait"
             (UploadHandler_save demo.store demo.file [x01; x02; x03] [x09]
                demo.info (demo.t 0) (demo.t 1000) (demo.t 2000)
                demo.empty).1).1).1).1).
  apply keyed_SaveInfo; [apply utf8_generateID|].
  apply keyed_Save. apply keyed_Save.
  apply keyed_UploadHandler_save. by apply keyed_no_files.
Qed.

(** ** Listing distinct ids *)

Section ListingIds.

Context (s : LocalStorage).
Implicit Types (fs : FS) (id : string) (e : OS.DirEntry).

Lemma listed_id fs e info :
  keyed s fs → listed s fs e = Some info →
  OS.IsDir e = false ∧ OS.Name e = ID info +:+ ".json".
Proof using Type.
  intros Hk (Hd & Hn & Hg)%listed_Some. split; [done|].
  by rewrite (Hk _ _ Hg).
Qed.

Lemma NoDup_listed_ids fs entries :
  keyed s fs →
  NoDup (OS.Name <$> filter (λ e, OS.IsDir e = false) entries) →
  NoDup (ID <$> omap (listed s fs) entries).
Proof using Type.
  intros Hk. induction entries as [|e l IH]; intros Hnd; [constructor|].
  cbn [omap list_omap].
  assert (NoDup (OS.Name <$> filter (λ e, OS.IsDir e = false) l)) as Hl.
  { rewrite filter_cons in Hnd. destruct (decide (OS.IsDir e = false));
      [|done]. rewrite fmap_cons in Hnd. by apply NoDup_cons in Hnd as [_ ?]. }
  destruct (listed s fs e) as [info|] eqn:He; [|by apply IH].
  rewrite fmap_cons. apply NoDup_cons. split; [|by apply IH].
  destruct (listed_id _ _ _ Hk He) as [Hd Hn].
  rewrite filter_cons_True, fmap_cons in Hnd by done.
  apply NoDup_cons in Hnd as [Hnotin _].
  intros (info' & Hid & (e' & He' & Hl')%list_elem_of_omap)%list_elem_of_fmap.
  destruct (listed_id _ _ _ Hk Hl') as [Hd' Hn'].
  apply Hnotin, list_elem_of_fmap. exists e'. split.
  - by rewrite Hn, Hn', Hid.
  - by apply list_elem_of_filter.
Qed.

Lemma List_NoDup_ids fs images :
  keyed s fs → List s fs = Ok images → NoDup (ID <$> images).
Proof using Type.
  intros Hk HL.
  destruct (ReadDir (basePath s ++ ["metadata"]) fs) as [entries|] eqn:HR.
  - rewrite (List_Ok _ _ _ HR) in HL. injection HL as <-.
    apply NoDup_listed_ids; [done|]. apply (NoDup_ReadDir _ _ _ HR).
  - unfold List in HL. by rewrite HR in HL.
Qed.




End ListingIds.

(** X4. List returns at most one record per id: in a store that keeps every
    record under its own id, the ids of the listed records are pairwise
    distinct. *)
Theorem List_ids_distinct (s : LocalStorage) (fs : FS) (images : list ImageInfo) :
  keyed s fs → List s fs = Ok images → NoDup (ID <$> images).
Proof. apply List_NoDup_ids. Qed.

Lemma List_ids_distinct_witness :
  ∃ images, List demo.store demo.two_items = Ok images
            ∧ NoDup (ID <$> images).
Proof.
  pose proof demo_keyed_two_items as Hk.
  destruct (List demo.store demo.two_items) as [images|e] eqn:HL.
  - exists images. split; [done|].
    exact (List_ids_distinct demo.store demo.two_items images Hk HL).
  - exfalso. vm_compute in HL. discriminate HL.
Defined.



(** ** Reading back and deleting *)

Section ReadBack.

Context (s : LocalStorage).
Implicit Types (fs : FS) (id : string) (p : path).

Lemma Remove_Ok p fs fs' :
  OS.Remove p fs = (fs', None) →
  is_Some (files fs !! p) ∧ (p ∉ readonly fs)
  ∧ fs' = set_files fs (delete p (files fs)).
Proof using Type.
  unfold OS.Remove. destruct (files fs !! p) eqn:E; [|done].
  case_bool_decide; [done|]. intros [= <-]. eauto.
Qed.

Lemma DeleteInfo_Ok id fs fs' :
  DeleteInfo s id fs = (fs', None) →
  is_Some (files fs !! metadataPath s id)
  ∧ files fs' = delete (metadataPath s id) (files fs)
  ∧ dirs fs' = dirs fs ∧ readonly fs' = readonly fs.
Proof using Type.
  unfold DeleteInfo.
  destruct (OS.Remove _ fs) as [fs1 [e|]] eqn:E.
  { by destruct (OS.IsNotExist e). }
  intros [= <-]. by apply Remove_Ok in E as (? & _ & ->).
Qed.

Lemma DeleteInfo_absent id fs :
  files fs !! metadataPath s id = None →
  DeleteInfo s id fs = (fs, Some ErrFileNotFound).
Proof using Type. intros H. unfold DeleteInfo, OS.Remove. by rewrite H. Qed.



Lemma NoDup_singleton_eq {A} (l : list A) (x : A) :
  NoDup l → x ∈ l → (∀ y, y ∈ l → y = x) → l = [x].
Proof using Type.
  intros Hnd Hx Hall. destruct l as [|a [|b l]].
  - by apply not_elem_of_nil in Hx.
  - f_equal. apply Hall. left.
  - apply NoDup_cons in Hnd as [Hab _]. destruct Hab.
    rewrite (Hall a), (Hall b); [left | right; left | left].
Qed.

Lemma HasPrefix_shorter id : Str.HasPrefix id (id +:+ ".") = false.
Proof using Type.
  unfold Str.HasPrefix. rewrite str_length_app. cbn [String.length].
  apply andb_false_iff. left. apply Nat.leb_gt. lia.
Qed.


Lemma Save_Glob_original now reader filename (o : ImageOrientation)
    fs fs' id :
  Save s now reader filename Original o fs = (fs', Ok id) →
  (∀ n, Str.HasPrefix n (id +:+ ".") = true →
        files fs !! (basePath s ++ ["original"; o; n]) = None) →
  Glob (basePath s ++ ["original"; o]) id fs'
  = if String.eqb (Str.Ext filename) "" then []
    else [basePath s ++ ["original"; o; id +:+ Str.Ext filename]].
Proof using Type.
  intros (_ & Hfiles & _)%Save_Ok Hfree.
  unfold variantDir, variantExt in Hfiles.
  rewrite bool_decide_true in Hfiles by done.
  rewrite bool_decide_false in Hfiles by (by intros []).
  cbn [app] in Hfiles.
  destruct (String.eqb_spec (Str.Ext filename) "") as [He|He].
  - apply Glob_nil. intros n Hn. rewrite <- app_assoc. cbn [app].
    rewrite Hfiles, lookup_insert_ne; [by apply Hfree|].
    intros H%app_inv_head. injection H as <-.
    by rewrite He, str_app_nil_r, HasPrefix_shorter in Hn.
  - apply NoDup_singleton_eq; [apply NoDup_Glob|..].
    + apply elem_of_Glob. exists (id +:+ Str.Ext filename).
      rewrite <- app_assoc. cbn [app]. split; [done|]. split.
      * destruct (Ext_shape filename) as [?|(e & -> & _)]; [done|].
        change (String "." e) with ("." +:+ e).
        rewrite <- str_app_assoc. apply HasPrefix_app.
      * rewrite Hfiles, lookup_insert_eq. eauto.
    + intros p (n & -> & Hn & [d Hd])%elem_of_Glob.
      rewrite <- app_assoc in *. cbn [app] in *.
      rewrite Hfiles in Hd.
      destruct (decide (n = id +:+ Str.Ext filename)) as [->|Hne]; [done|].
      rewrite lookup_insert_ne in Hd.
      * by pose proof (eq_trans (eq_sym Hd) (Hfree n Hn)).
      * intros H%app_inv_head. by injection H.
Qed.

End ReadBack.

(** X6. DeleteInfo removes the metadata file of the id and nothing else:
    after a successful DeleteInfo, GetInfo for the id fails with the
    not-found error, every other file is what it was, and a second
    DeleteInfo fails with the not-found error and changes nothing.
    DeleteInfo for an id without metadata file fails with the not-found
    error and changes nothing. *)
Theorem DeleteInfo_removes_the_record (s : LocalStorage) (id : string) (fs : FS) :
  (∀ fs', DeleteInfo s id fs = (fs', None) →
     GetInfo s id fs' = Err ErrFileNotFound
     ∧ (∀ p, p ≠ metadataPath s id → files fs' !! p = files fs !! p)
     ∧ (∀ id', id' ≠ id → GetInfo s id' fs' = GetInfo s id' fs)
     ∧ DeleteInfo s id fs' = (fs', Some ErrFileNotFound))
  ∧ (GetInfo s id fs = Err ErrFileNotFound →
     DeleteInfo s id fs = (fs, Some ErrFileNotFound)).
Proof.
  split.
  - intros fs' (_ & Hf & _)%DeleteInfo_Ok.
    assert (files fs' !! metadataPath s id = None) as Hgone
      by (rewrite Hf; apply lookup_delete_eq).
    repeat split.
    + by apply GetInfo_NotFound.
    + intros p Hp. rewrite Hf. by apply lookup_delete_ne.
    + intros id' Hne. apply GetInfo_ext. rewrite Hf.
      apply lookup_delete_ne. by intros ?%metadataPath_inj.
    + by apply DeleteInfo_absent.
  - intros Hg%GetInfo_NotFound. by apply DeleteInfo_absent.
Qed.

Lemma DeleteInfo_removes_the_record_witness :
  let s := demo.store in
  let id := ID demo.uploaded_record in
  let fs' := (DeleteInfo s id demo.uploaded).1 in
  GetInfo s id fs' = Err ErrFileNotFound
  ∧ (∀ p, p ≠ metadataPath s id → files fs' !! p = files demo.uploaded !! p)
  ∧ (∀ id', id' ≠ id → GetInfo s id' fs' = GetInfo s id' demo.uploaded)
  ∧ DeleteInfo s id fs' = (fs', Some ErrFileNotFound).
Proof.
  intros s id fs'.
  apply (proj1 (DeleteInfo_removes_the_record s id demo.uploaded) fs').
  apply pair_snd_eq. vm_compute. reflexivity.
Defined.



(** X8. An original saved from a file name without extension is stored but
    cannot be reached: Save writes the file [<id>], the pattern [<id>.*] of
    Get and Delete does not match it, and both fail with the not-found
    error. *)
Theorem Save_without_extension_is_unreachable
    (s : LocalStorage) (now : Time) (reader : list byte) (filename : string)
    (o : ImageOrientation) (fs fs' : FS) (id : string) :
  Save s now reader filename Original o fs = (fs', Ok id) →
  Str.Ext filename = "" →
  (∀ n, Str.HasPrefix n (id +:+ ".") = true →
        files fs !! (basePath s ++ ["original"; o; n]) = None) →
  files fs' !! (basePath s ++ ["original"; o; id]) = Some (Blob reader)
  ∧ Get s id Original o fs' = Err ErrFileNotFound
  ∧ Delete s id Original o fs' = (fs', Some ErrFileNotFound).
Proof.
  intros HS Hext Hfree.
  pose proof (Save_Glob_original s _ _ _ _ _ _ _ HS Hfree) as HG.
  rewrite Hext in HG. cbn [String.eqb] in HG.
  apply Save_Ok in HS as (_ & Hfiles & _).
  unfold variantDir, variantExt in Hfiles.
  rewrite bool_decide_true in Hfiles by done.
  rewrite bool_decide_false in Hfiles by (by intros []).
  rewrite Hext, str_app_nil_r in Hfiles. cbn [app] in Hfiles.
  split; [by rewrite Hfiles, lookup_insert_eq|].
  unfold Get, Delete, resolvePath. rewrite bool_decide_true by done.
  by rewrite HG.
Qed.

Lemma Save_without_extension_is_unreachable_witness :
  let s := demo.store in
  let id := generateID (demo.t 0) in
  let fs' := (Save s (demo.t 0) [x01] "README" Original "landscape"
                demo.empty).1 in
  files fs' !! (basePath s ++ ["original"; "landscape"; id])
  = Some (Blob [x01])
  ∧ Get s id Original "landscape" fs' = Err ErrFileNotFound
  ∧ Delete s id Original "landscape" fs' = (fs', Some ErrFileNotFound).
Proof.
  intros s id fs'.
  apply (Save_without_extension_is_unreachable s (demo.t 0) [x01] "README"
           "landscape" demo.empty fs' id).
  - apply pair_snd_eq. vm_compute. reflexivity.
  - vm_compute. reflexivity.
  - intros n _. apply lookup_empty.
Defined.

(** X9. Delete reports the not-found error exactly when Get does, for every
    id, format and orientation and in every state. *)
Theorem Delete_NotFound_iff_Get
    (s : LocalStorage) (id : string) (f : ImageFormat)
    (o : ImageOrientation) (fs : FS) :
  (Delete s id f o fs).2 = Some ErrFileNotFound
  ↔ Get s id f o fs = Err ErrFileNotFound.
Proof.
  unfold Delete, Get. destruct (resolvePath s id f o fs) as [p|e].
  - unfold OS.Remove, OS.ReadFile. destruct (files fs !! p); [|done].
    case_bool_decide; cbn; split; discriminate.
  - cbn [snd]. split; by intros [= ->].
Qed.

(** ** Deleting a variant and deleting an item *)

Section Deleting.

Context (s : LocalStorage).
Implicit Types (fs : FS) (id : string) (p : path).









End Deleting.







(** ** Pages of the image list *)

Section Pages.

Context (store : LocalStorage).

Lemma wrap64_small (z : Z) : (- 2 ^ 63 ≤ z < 2 ^ 63)%Z → wrap64 z = z.
Proof using Type.
  intros H. unfold wrap64. rewrite Z.mod_small; lia.
Qed.

Lemma norm_limit_range (limit : Z) : (1 ≤ norm_limit limit ≤ 100)%Z.
Proof using Type.
  unfold norm_limit. destruct (Z.ltb_spec limit 1); cbn [orb]; [lia|].
  destruct (Z.gtb_spec limit 100); lia.
Qed.

Lemma norm_page_range (page : Z) : (1 ≤ norm_page page)%Z.
Proof using Type. unfold norm_page. destruct (Z.ltb_spec page 1); lia. Qed.

Lemma ListImagesHandler_unfold page limit tag fs images :
  List store fs = Ok images →
  ListImagesHandler store page limit tag fs
  = let filtered := filter_tag tag images in
    let total := Z.of_nat (length filtered) in
    let start := wrap64 ((norm_page page - 1) * norm_limit limit) in
    let end_ := wrap64 (start + norm_limit limit) in
    let start' := if (start >=? total)%Z then 0%Z else start in
    let page' := if (start >=? total)%Z then 1%Z else norm_page page in
    let end' := if (end_ >? total)%Z then total else end_ in
    if (start' <? total)%Z then
      match slice filtered start' end' with
      | None => Panics
      | Some pageImages =>
          Responds 200
            (Some {| l_Total := total; l_Page := page';
                     l_Limit := norm_limit limit;
                     l_Data := toResponse store <$> pageImages |})
      end
    else
      Responds 200
        (Some {| l_Total := total; l_Page := page';
                 l_Limit := norm_limit limit; l_Data := [] |}).
Proof using Type.
  intros HL. unfold ListImagesHandler. rewrite HL. reflexivity.
Qed.

Lemma slice_Some {A} (l : list A) (low high : Z) :
  (0 ≤ low ≤ high)%Z → (high ≤ Z.of_nat (length l))%Z →
  slice l low high
  = Some (take (Z.to_nat (high - low)) (drop (Z.to_nat low) l)).
Proof using Type.
  intros H1 H2. unfold slice.
  destruct (Z.leb_spec 0 low); [|lia].
  destruct (Z.leb_spec low high); [|lia].
  destruct (Z.leb_spec high (Z.of_nat (length l))); [|lia]. done.
Qed.

Lemma slice_negative {A} (l : list A) (low high : Z) :
  (low < 0)%Z → slice l low high = None.
Proof using Type.
  intros H. unfold slice. destruct (Z.leb_spec 0 low); [lia|done].
Qed.

Lemma ListImagesHandler_in_range page limit tag fs images :
  List store fs = Ok images →
  ((norm_page page - 1) * norm_limit limit + norm_limit limit < 2 ^ 63)%Z →
  let filtered := filter_tag tag images in
  let total := Z.of_nat (length filtered) in
  let start := ((norm_page page - 1) * norm_limit limit)%Z in
  ∃ r,
    ListImagesHandler store page limit tag fs = Responds 200 (Some r)
    ∧ l_Total r = total
    ∧ l_Limit r = norm_limit limit
    ∧ (if (start <? total)%Z
       then l_Page r = norm_page page
            ∧ l_Data r
              = toResponse store
                  <$> take (Z.to_nat (norm_limit limit))
                        (drop (Z.to_nat start) filtered)
            ∧ (Z.of_nat (length (l_Data r)) ≤ norm_limit limit)%Z
       else l_Page r = 1%Z ∧ l_Data r = toResponse store <$> filtered).
Proof using Type.
  intros HL Hno filtered total start. subst filtered total start.
  rewrite (ListImagesHandler_unfold _ _ _ _ _ HL). cbv zeta.
  set (filtered := filter_tag tag images).
  set (total := Z.of_nat (length filtered)).
  set (start := ((norm_page page - 1) * norm_limit limit)%Z) in *.
  pose proof (norm_limit_range limit) as Hl.
  pose proof (norm_page_range page) as Hp.
  assert (0 ≤ start)%Z as Hs0 by (unfold start; nia).
  rewrite (wrap64_small start) by lia.
  rewrite (wrap64_small (start + norm_limit limit)) by lia.
  assert (0 ≤ total)%Z as Ht0 by (unfold total; lia).
  destruct (Z.ltb_spec start total) as [Hlt|Hge].
  - rewrite Z.geb_leb. destruct (Z.leb_spec total start) as [?|_]; [lia|].
    destruct (Z.ltb_spec start total) as [_|?]; [|lia].
    assert (Z.of_nat (length (take (Z.to_nat (norm_limit limit))
                                (drop (Z.to_nat start) filtered)))
            ≤ norm_limit limit)%Z as Hbound by (rewrite length_take; lia).
    destruct (Z.gtb_spec (start + norm_limit limit) total) as [Hgt|Hle].
    + rewrite slice_Some by lia.
      assert (take (Z.to_nat (total - start)) (drop (Z.to_nat start) filtered)
              = take (Z.to_nat (norm_limit limit))
                  (drop (Z.to_nat start) filtered)) as E1.
      { rewrite !take_ge; [done|rewrite length_drop..]; unfold total in *; lia. }
      eexists. split; [done|]. cbn [l_Total l_Limit l_Page l_Data].
      rewrite E1, length_fmap. done.
    + rewrite slice_Some by lia.
      replace (start + norm_limit limit - start)%Z with (norm_limit limit)
        by lia.
      eexists. split; [done|]. cbn [l_Total l_Limit l_Page l_Data].
      rewrite length_fmap. done.
  - rewrite Z.geb_leb. destruct (Z.leb_spec total start) as [_|?]; [|lia].
    destruct (Z.gtb_spec (start + norm_limit limit) total) as [_|?]; [|lia].
    destruct (Z.ltb_spec 0 total) as [Hpos|Hzero].
    + rewrite slice_Some by lia.
      eexists. split; [done|]. cbn [l_Total l_Limit l_Page l_Data].
      repeat split. f_equal. rewrite Z.sub_0_r. unfold total.
      rewrite Nat2Z.id. cbn [Z.to_nat drop]. by rewrite firstn_all.
    + eexists. split; [done|]. cbn [l_Total l_Limit l_Page l_Data].
      repeat split. assert (filtered = []) as ->; [|done].
      apply length_zero_iff_nil. unfold total in *. lia.
Qed.

Lemma ListImagesHandler_negative_start page limit tag fs images :
  List store fs = Ok images →
  (wrap64 ((norm_page page - 1) * norm_limit limit) < 0)%Z →
  ListImagesHandler store page limit tag fs = Panics.
Proof using Type.
  intros HL Hneg. rewrite (ListImagesHandler_unfold _ _ _ _ _ HL). cbv zeta.
  set (start := wrap64 ((norm_page page - 1) * norm_limit limit)) in *.
  set (total := Z.of_nat (length (filter_tag tag images))).
  assert (0 ≤ total)%Z as Ht0 by (unfold total; lia).
  rewrite Z.geb_leb. destruct (Z.leb_spec total start) as [?|_]; [lia|].
  destruct (Z.ltb_spec start total) as [_|?]; [|lia].
  by rewrite slice_negative.
Qed.

End Pages.

(** X13. ListImagesHandler pages the filtered list.  A limit outside 1..100
    becomes 20 and a page below 1 becomes 1.  When (page-1)*limit+limit does
    not overflow, the answer is 200 with the total of the filtered list and
    the limit used; if the page starts inside the list, the data are the at
    most [limit] items from position (page-1)*limit on and the page is the
    requested one; if it starts at or beyond the end, the page answered is
    1 and the data are all the filtered items, however many. *)
Theorem ListImagesHandler_pages
    (store : LocalStorage) (page limit : Z) (tag : string) (fs : FS)
    (images : list ImageInfo) :
  List store fs = Ok images →
  ((norm_page page - 1) * norm_limit limit + norm_limit limit < 2 ^ 63)%Z →
  let filtered := filter_tag tag images in
  let total := Z.of_nat (length filtered) in
  let start := ((norm_page page - 1) * norm_limit limit)%Z in
  (1 ≤ norm_limit limit ≤ 100)%Z
  ∧ ∃ r,
    ListImagesHandler store page limit tag fs = Responds 200 (Some r)
    ∧ l_Total r = total
    ∧ l_Limit r = norm_limit limit
    ∧ (if (start <? total)%Z
       then l_Page r = norm_page page
            ∧ l_Data r
              = toResponse store
                  <$> take (Z.to_nat (norm_limit limit))
                        (drop (Z.to_nat start) filtered)
            ∧ (Z.of_nat (length (l_Data r)) ≤ norm_limit limit)%Z
       else l_Page r = 1%Z ∧ l_Data r = toResponse store <$> filtered).
Proof.
  intros HL Hno. split; [apply norm_limit_range|].
  by apply ListImagesHandler_in_range.
Qed.

Lemma ListImagesHandler_pages_witness :
  ∃ images,
    List demo.store demo.two_items = Ok images
    ∧ ∃ r,
        ListImagesHandler demo.store 5 1 "" demo.two_items
        = Responds 200 (Some r)
        ∧ l_Total r = Z.of_nat (length (filter_tag "" images))
        ∧ l_Limit r = norm_limit 1
        ∧ (if ((norm_page 5 - 1) * norm_limit 1
               <? Z.of_nat (length (filter_tag "" images)))%Z
           then l_Page r = norm_page 5
                ∧ l_Data r
                  = toResponse demo.store
                      <$> take (Z.to_nat (norm_limit 1))
                            (drop (Z.to_nat ((norm_page 5 - 1) * norm_limit 1))
                               (filter_tag "" images))
                ∧ (Z.of_nat (length (l_Data r)) ≤ norm_limit 1)%Z
           else l_Page r = 1%Z
                ∧ l_Data r = toResponse demo.store <$> filter_tag "" images).
Proof.
  destruct (List demo.store demo.two_items) as [images|e] eqn:HL.
  - exists images. split; [reflexivity|].
    apply (ListImagesHandler_pages demo.store 5 1 "" demo.two_items images HL).
    vm_compute. reflexivity.
  - exfalso. vm_compute in HL. discriminate HL.
Defined.

(** X14. ListImagesHandler panics on a page number so large that
    (page-1)*limit wraps to a negative 64-bit integer: the slice expression
    is then evaluated with a negative lower bound. *)
Theorem ListImagesHandler_panics
    (store : LocalStorage) (page limit : Z) (tag : string) (fs : FS)
    (images : list ImageInfo) :
  List store fs = Ok images →
  (wrap64 ((norm_page page - 1) * norm_limit limit) < 0)%Z →
  ListImagesHandler store page limit tag fs = Panics.
Proof. apply ListImagesHandler_negative_start. Qed.

Lemma ListImagesHandler_panics_witness :
  ListImagesHandler demo.store (2 ^ 61 + 1) 4 "" demo.two_items = Panics.
Proof.
  destruct (List demo.store demo.two_items) as [images|e] eqn:HL.
  - apply (ListImagesHandler_panics demo.store (2 ^ 61 + 1) 4 ""
             demo.two_items images HL).
    vm_compute. reflexivity.
  - exfalso. vm_compute in HL. discriminate HL.
Defined.

(** ** Extensions and formats *)

Section Extensions.

Lemma get_app_r (a b : string) (k : nat) :
  String.get (String.length a + k) (a +:+ b) = String.get k b.
Proof using Type.
  induction a as [|c a IH]; [done|]. rewrite str_app_cons. cbn. apply IH.
Qed.

Lemma plain_get (e : string) (k : nat) (c : ascii) :
  plain e = true → String.get k e = Some c →
  Ascii.eqb c "." = false ∧ Str.IsPathSeparator c = false.
Proof using Type.
  revert k. induction e as [|d e IH]; intros k Hp Hg; [by destruct k|].
  cbn [plain] in Hp. apply andb_true_iff in Hp as [Hd Hp].
  apply andb_true_iff in Hd as [Hdot Hsep].
  destruct k as [|k]; cbn in Hg.
  - injection Hg as <-. split; by apply negb_true_iff.
  - by apply (IH k).
Qed.

Lemma Ext_scan_app (stem e : string) (k : nat) :
  plain e = true → k ≤ String.length e →
  Str.Ext_scan (stem +:+ "." +:+ e) (String.length stem + 1 + k)
  = "." +:+ e.
Proof using Type.
  intros Hp. induction k as [|k IH]; intros Hk.
  - replace (String.length stem + 1 + 0) with (S (String.length stem)) by lia.
    cbn [Str.Ext_scan].
    replace (String.length stem) with (String.length stem + 0) at 1 by lia.
    rewrite get_app_r. cbn [String.get String.append].
    change (Str.IsPathSeparator ".") with false. cbn [Ascii.eqb Bool.eqb].
    rewrite <- (from_app stem ("." +:+ e)) at 2. done.
  - replace (String.length stem + 1 + S k)
      with (S (String.length stem + 1 + k)) by lia.
    cbn [Str.Ext_scan].
    assert (String.get (String.length stem + 1 + k) (stem +:+ "." +:+ e)
            = String.get k e) as ->.
    { rewrite <- Nat.add_assoc, get_app_r.
      change ("." +:+ e) with (String "." e). done. }
    destruct (get_lt_Some k e) as [c Hc]; [lia|]. rewrite Hc.
    destruct (plain_get e k c Hp Hc) as [-> ->]. apply IH. lia.
Qed.

(** filepath.Ext finds the extension of a name that ends with a dot and
    text without dot and separator. *)
Lemma Ext_app (stem e : string) :
  plain e = true → Str.Ext (stem +:+ "." +:+ e) = "." +:+ e.
Proof using Type.
  intros Hp. unfold Str.Ext.
  replace (String.length (stem +:+ "." +:+ e))
    with (String.length stem + 1 + String.length e).
  - by apply Ext_scan_app.
  - rewrite !str_length_app. cbn [String.length]. lia.
Qed.

Lemma isAllowedImageType_spec (ext : string) :
  isAllowedImageType ext = true
  ↔ ext ∈ [".jpg"; ".jpeg"; ".png"; ".gif"; ".webp"; ".avif"].
Proof using Type.
  unfold isAllowedImageType, allowedTypes.
  rewrite !list_to_map_cons, list_to_map_nil. cbn [fst snd].
  rewrite !lookup_insert, lookup_empty.
  rewrite !elem_of_cons, elem_of_nil.
  repeat case_decide; subst; cbn [default]; split; intros Hx;
    try done; try tauto; try (repeat destruct Hx as [Hx|Hx]; done).
Qed.

Lemma FormatFromExtension_spec (filename : string) :
  converter.FormatFromExtension filename ≠ ""
  ↔ Str.ToLower (Str.Ext filename)
    ∈ [".jpg"; ".jpeg"; ".png"; ".gif"; ".webp"; ".avif"].
Proof using Type.
  unfold converter.FormatFromExtension.
  rewrite !elem_of_cons, elem_of_nil.
  destruct (String.eqb_spec (Str.ToLower (Str.Ext filename)) ".jpg");
    [cbn [orb]; split; [tauto | done]|].
  destruct (String.eqb_spec (Str.ToLower (Str.Ext filename)) ".jpeg");
    [cbn [orb]; split; [tauto | done]|].
  cbn [orb].
  destruct (String.eqb_spec (Str.ToLower (Str.Ext filename)) ".png");
    [split; [tauto | done]|].
  destruct (String.eqb_spec (Str.ToLower (Str.Ext filename)) ".gif");
    [split; [tauto | done]|].
  destruct (String.eqb_spec (Str.ToLower (Str.Ext filename)) ".webp");
    [split; [tauto | done]|].
  destruct (String.eqb_spec (Str.ToLower (Str.Ext filename)) ".avif");
    [split; [tauto | done]|].
  split; [done | tauto].
Qed.

End Extensions.

(** X15. The type check of the upload and the extension table of the
    converter agree: UploadHandler accepts the extension of a file name
    exactly when converter.FormatFromExtension knows a format for that
    name. *)
Theorem isAllowedImageType_iff_FormatFromExtension (filename : string) :
  isAllowedImageType (Str.ToLower (Str.Ext filename)) = true
  ↔ converter.FormatFromExtension filename ≠ "".
Proof.
  by rewrite isAllowedImageType_spec, FormatFromExtension_spec.
Qed.

(** X16. The two tables of the converter are inverse on the formats:
    whatever the stem of the name, FormatFromExtension of a name that ends
    with ExtensionFromFormat of jpeg, png, gif, webp or avif is that format
    again.  ExtensionFromFormat of any other format is empty. *)
Theorem FormatFromExtension_ExtensionFromFormat (format stem : string) :
  (format ∈ ["jpeg"; "png"; "gif"; "webp"; "avif"] →
   converter.FormatFromExtension
     (stem +:+ converter.ExtensionFromFormat format) = format)
  ∧ (format ∉ ["jpeg"; "png"; "gif"; "webp"; "avif"] →
     converter.ExtensionFromFormat format = "").
Proof.
  split.
  - rewrite !elem_of_cons, elem_of_nil.
    intros [->|[->|[->|[->|[->|[]]]]]];
      unfold converter.FormatFromExtension;
      [change (converter.ExtensionFromFormat "jpeg") with ("." +:+ "jpg")
      |change (converter.ExtensionFromFormat "png") with ("." +:+ "png")
      |change (converter.ExtensionFromFormat "gif") with ("." +:+ "gif")
      |change (converter.ExtensionFromFormat "webp") with ("." +:+ "webp")
      |change (converter.ExtensionFromFormat "avif") with ("." +:+ "avif")];
      by rewrite Ext_app.
  - rewrite !not_elem_of_cons. intros (H1 & H2 & H3 & H4 & H5 & _).
    unfold converter.ExtensionFromFormat.
    destruct (String.eqb_spec format "jpeg") as [?|_]; [done|].
    destruct (String.eqb_spec format "png") as [?|_]; [done|].
    destruct (String.eqb_spec format "gif") as [?|_]; [done|].
    destruct (String.eqb_spec format "webp") as [?|_]; [done|].
    destruct (String.eqb_spec format "avif") as [?|_]; [done|].
    reflexivity.
Qed.

Lemma FormatFromExtension_ExtensionFromFormat_witness :
  converter.FormatFromExtension
    ("holiday/IMG_1" +:+ converter.ExtensionFromFormat "png") = "png"
  ∧ converter.ExtensionFromFormat "bmp" = "".
Proof.
  destruct (FormatFromExtension_ExtensionFromFormat "png" "holiday/IMG_1")
    as [H1 _].
  destruct (FormatFromExtension_ExtensionFromFormat "bmp" "") as [_ H2].
  split.
  - apply H1. rewrite !elem_of_cons. tauto.
  - apply H2. rewrite !not_elem_of_cons. repeat split; try discriminate.
    apply not_elem_of_nil.
Defined.

(** ** Construction of the store *)

Section Construction.

Lemma MkdirAll_free p fs :
  (∀ q, q ∈ OS.ancestors p → files fs !! q = None) →
  OS.MkdirAll p fs
  = ({| files := files fs;
        dirs := list_to_set (OS.ancestors p) ∪ dirs fs;
        readonly := readonly fs |}, None).
Proof using Type.
  intros Hm. unfold OS.MkdirAll.
  assert (existsb (λ q, bool_decide (is_Some (files fs !! q)))
            (OS.ancestors p) = false) as ->; [|done].
  apply existsb_false. intros q Hq. rewrite (Hm q Hq).
  apply bool_decide_eq_false. by intros [? ?].
Qed.

Lemma MkdirAll_occupied p fs fs1 e :
  OS.MkdirAll p fs = (fs1, Some e) →
  ∃ q, q ∈ OS.ancestors p ∧ is_Some (files fs !! q).
Proof using Type.
  unfold OS.MkdirAll.
  destruct (existsb _ (OS.ancestors p)) eqn:E; [|done]. intros _.
  apply existsb_exists in E as (q & Hq & Hs). exists q. split.
  - by apply list_elem_of_In.
  - by apply bool_decide_eq_true in Hs.
Qed.

Lemma mkdir_then_Err p k fs fs1 e :
  OS.MkdirAll p fs = (fs1, Some e) → mkdir_then p k fs = (fs1, Some e).
Proof using Type. intros H. unfold mkdir_then. by rewrite H. Qed.

Lemma mkdir_then_Ok p k fs fs1 :
  OS.MkdirAll p fs = (fs1, None) → mkdir_then p k fs = k fs1.
Proof using Type. intros H. unfold mkdir_then. by rewrite H. Qed.

(** The chain of os.MkdirAll calls: the files and the permissions stay, the
    directories grow, and the chain succeeds exactly when no regular file
    lies on one of the paths. *)
Lemma mkdirs_spec (ps : list path) (fs : FS) :
  let r := foldr mkdir_then (λ fs, (fs, None)) ps fs in
  files r.1 = files fs ∧ readonly r.1 = readonly fs ∧ dirs fs ⊆ dirs r.1
  ∧ (r.2 = None
     ↔ ∀ d q, d ∈ ps → q ∈ OS.ancestors d → files fs !! q = None)
  ∧ (r.2 = None → ∀ d q, d ∈ ps → q ∈ OS.ancestors d → q ∈ dirs r.1).
Proof using Type.
  revert fs. induction ps as [|p ps IH]; intros fs r; subst r; cbn [foldr].
  - cbn [fst snd]. split; [done|]. split; [done|]. split; [done|].
    split; [|by intros _ d q Hd%elem_of_nil].
    split; [by intros _ d q Hd%elem_of_nil | reflexivity].
  - destruct (OS.MkdirAll p fs) as [fs1 [e|]] eqn:HM.
    + rewrite (mkdir_then_Err _ _ _ _ _ HM).
      pose proof (MkdirAll_occupied _ _ _ _ HM) as (q & Hq & Hs).
      apply MkdirAll_Err in HM as ->. cbn [fst snd].
      split; [done|]. split; [done|]. split; [done|].
      split; [|done]. split; [done|]. intros Hfree.
      rewrite (Hfree p q) in Hs; [by destruct Hs| |done]. apply list_elem_of_here.
    + rewrite (mkdir_then_Ok _ _ _ _ HM).
      apply MkdirAll_Ok in HM as [-> Hp].
      destruct (IH {| files := files fs;
                      dirs := list_to_set (OS.ancestors p) ∪ dirs fs;
                      readonly := readonly fs |})
        as (Hf & Hr & Hd & Hiff & Hin).
      cbn [files dirs readonly] in *.
      split; [done|]. split; [done|].
      split; [etrans; [|exact Hd]; apply union_subseteq_r|].
      split.
      * rewrite Hiff. split.
        -- intros Hfree d q [->|Hd']%elem_of_cons Hq; [by apply Hp|].
           by apply (Hfree d).
        -- intros Hfree d q Hd' Hq. apply (Hfree d); [|done].
           by apply list_elem_of_further.
      * intros Hnone d q [->|Hd']%elem_of_cons Hq.
        -- apply Hd. apply elem_of_union_l. by apply elem_of_list_to_set.
        -- by apply (Hin Hnone d).
Qed.

(** On a store that has the directories the chain changes nothing. *)
Lemma mkdirs_again (ps : list path) (fs : FS) :
  (∀ d q, d ∈ ps → q ∈ OS.ancestors d →
          files fs !! q = None ∧ q ∈ dirs fs) →
  foldr mkdir_then (λ fs, (fs, None)) ps fs = (fs, None).
Proof using Type.
  induction ps as [|p ps IH]; intros H; cbn [foldr]; [done|].
  rewrite (mkdir_then_Ok p _ fs _ (MkdirAll_free p fs
             (λ q Hq, proj1 (H p q (list_elem_of_here p ps) Hq)))).
  assert (list_to_set (OS.ancestors p) ∪ dirs fs = dirs fs) as ->.
  { apply subseteq_union_1_L. intros q Hq%elem_of_list_to_set.
    apply (H p q); [apply list_elem_of_here | done]. }
  assert ({| files := files fs; dirs := dirs fs;
             readonly := readonly fs |} = fs) as -> by (by destruct fs).
  apply IH. intros d q Hd Hq. apply (H d q); [|done].
  by apply list_elem_of_further.
Qed.

Lemma ensureDirectories_layout (base : path) (fs : FS) :
  ensureDirectories base fs
  = foldr mkdir_then (λ fs, (fs, None)) (layout base) fs.
Proof using Type.
  unfold ensureDirectories, layout. cbn [foldr]. by rewrite <- !(assoc_L (++)).
Qed.

End Construction.

(** X17. NewLocalStorage prepares the store.  It never touches a file or a
    permission and only adds directories.  It succeeds exactly when no
    regular file lies at or above one of the eight directories of the
    layout, and fails with the error of os.MkdirAll otherwise.  After a
    success all eight directories exist, List and CleanExpired succeed, and
    constructing the store again changes nothing. *)
Theorem NewLocalStorage_prepares_the_store (base : path) (fs : FS) :
  let free :=
    ∀ d q, d ∈ layout base → q ∈ OS.ancestors d → files fs !! q = None in
  let s := {| basePath := base |} in
  let fs' := (NewLocalStorage base fs).1 in
  files fs' = files fs ∧ readonly fs' = readonly fs ∧ dirs fs ⊆ dirs fs'
  ∧ ((NewLocalStorage base fs).2 = Ok s ↔ free)
  ∧ ((NewLocalStorage base fs).2 = Ok s
     ∨ (NewLocalStorage base fs).2 = Err ErrMkdir)
  ∧ (free →
     (∀ d, d ∈ layout base → d ∈ dirs fs')
     ∧ (∃ images, List s fs' = Ok images)
     ∧ (∀ now, ∃ n, (CleanExpired s now fs').2 = Ok n)
     ∧ NewLocalStorage base fs' = (fs', Ok s)).
Proof.
  intros free s fs'. subst fs'. unfold NewLocalStorage.
  rewrite !ensureDirectories_layout.
  destruct (mkdirs_spec (layout base) fs) as (Hf & Hr & Hd & Hiff & Hin).
  fold free in Hiff.
  destruct (foldr mkdir_then _ (layout base) fs) as [fs1 [e|]] eqn:E;
    cbn [fst snd] in *.
  - split; [done|]. split; [done|]. split; [done|].
    split; [|split; [by right|]].
    + split; [done|]. intros H. by apply Hiff in H.
    + intros H. by apply Hiff in H.
  - split; [done|]. split; [done|]. split; [done|].
    split; [split; [intros _; by apply Hiff | reflexivity]|].
    split; [by left|]. intros Hfree.
    assert (∀ d, d ∈ layout base → d ∈ dirs fs1) as Hall.
    { intros d Hd'. apply (Hin eq_refl d d Hd'), dir_in_ancestors. }
    assert (base ++ ["metadata"] ∈ dirs fs1) as Hmeta.
    { apply Hall. unfold layout. rewrite !elem_of_cons. tauto. }
    destruct (ReadDir_is_Some _ _ Hmeta) as [entries HR].
    split; [done|]. split; [|split].
    + exists (omap (listed s fs1) entries). by apply List_Ok.
    + intros now. eexists. by rewrite (CleanExpired_Some s now fs1 entries).
    + rewrite mkdirs_again; [done|].
      intros d q Hd' Hq. split.
      * rewrite Hf. by apply (Hfree d).
      * by apply (Hin eq_refl d).
Qed.

(** ** What a sweep may remove *)

Section Sweeping.

Context (s : LocalStorage).
Implicit Types (fs : FS) (id : string) (q : path).







End Sweeping.




(** ** Uploads that fail *)

Section Orphans.

Context (s : LocalStorage).
Implicit Types (fs : FS) (id : string) (q : path).


Lemma step_accounting cfg convert ts (st : FS * list string * list UploadError)
    file :
  let st' := UploadHandler_step cfg s convert ts st file in
  length st'.1.2 + length st'.2 = S (length st.1.2 + length st.2).
Proof using Type.
  destruct st as [[fs urls] errors]. unfold UploadHandler_step.
  destruct (_ >? _)%Z; [cbn [fst snd]; rewrite length_app; cbn [length]; lia|].
  destruct (negb _);
    [cbn [fst snd]; rewrite length_app; cbn [length]; lia|].
  destruct (convert _) as [[data info]|];
    [|cbn [fst snd]; rewrite length_app; cbn [length]; lia].
  destruct (UploadHandler_save _ _ _ _ _ _ _ _ _) as [fs1 [url|e]];
    cbn [fst snd]; rewrite length_app; cbn [length]; lia.
Qed.

Lemma loop_accounting cfg convert clock files i
    (st : FS * list string * list UploadError) :
  let st' := UploadHandler_loop cfg s convert clock i st files in
  length st'.1.2 + length st'.2
  = length st.1.2 + length st.2 + length files.
Proof using Type.
  revert i st. induction files as [|file files IH]; intros i st;
    cbn [UploadHandler_loop length]; [lia|].
  cbn zeta in IH. rewrite IH.
  pose proof (step_accounting cfg convert (clock i) st file) as H.
  cbn zeta in H. lia.
Qed.



End Orphans.

(** X20. UploadHandler accounts for every file of an accepted form: each
    file gives one URL or one error, the status is 200 exactly when at
    least one file was stored and 400 exactly when none was. *)
Theorem UploadHandler_accounts_for_every_file
    (cfg : Config) (store : LocalStorage)
    (convert : list byte → option (list byte * converter.ImageInfo))
    (clock : nat → Time * Time * Time) (files : list Upload) (fs : FS) :
  files ≠ [] →
  (Z.of_nat (length files) ≤ MaxUploadCount cfg)%Z →
  let r := (UploadHandler cfg store convert clock (Some files) fs).2 in
  length (u_Data r) + length (u_Errors r) = length files
  ∧ (u_status r = 200%Z ↔ u_Data r ≠ [])
  ∧ (u_status r = 400%Z ↔ u_Data r = []).
Proof.
  intros Hne Hmax r. subst r. unfold UploadHandler.
  destruct files as [|file files]; [done|].
  change (length (file :: files) =? 0)%nat with false. cbn match.
  destruct (Z.gtb_spec (Z.of_nat (length (file :: files)))
              (MaxUploadCount cfg)) as [?|_]; [lia|].
  pose proof (loop_accounting store cfg convert clock (file :: files) 0
                (fs, [], [])) as H.
  cbn zeta in H.
  destruct (UploadHandler_loop _ _ _ _ _ _ _) as [[fs' urls] errors].
  cbn [fst snd length] in H.
  destruct errors as [|e errors], urls as [|u urls];
    cbn [length Nat.eqb Nat.ltb Nat.leb snd u_Data u_Errors u_status]
      in H |- *;
    try lia; (split; [lia|]; split; split; done).
Qed.

Lemma UploadHandler_accounts_for_every_file_witness :
  let r := (UploadHandler (mkConfig 10 5) demo.store
              (λ _, Some ([x09], demo.info))
              (λ i, (demo.t 0, demo.t 1000, demo.t 2000))
              (Some [mkUpload demo.file [x01; x02; x03];
                     mkUpload (mkFileHeader "notes.txt" 3) [x01]])
              demo.empty).2 in
  length (u_Data r) + length (u_Errors r) = 2
  ∧ (u_status r = 200%Z ↔ u_Data r ≠ [])
  ∧ (u_status r = 400%Z ↔ u_Data r = []).
Proof.
  apply (UploadHandler_accounts_for_every_file (mkConfig 10 5) demo.store
           (λ _, Some ([x09], demo.info))
           (λ i, (demo.t 0, demo.t 1000, demo.t 2000))
           [mkUpload demo.file [x01; x02; x03];
            mkUpload (mkFileHeader "notes.txt" 3) [x01]]
           demo.empty).
  - discriminate.
  - cbn. lia.
Defined.





Lemma NewLocalStorage_prepares_the_store_witness :
  let fs' := (NewLocalStorage ["static"; "images"] demo.empty).1 in
  (NewLocalStorage ["static"; "images"] demo.empty).2 = Ok demo.store
  ∧ (∃ images, List demo.store fs' = Ok images)
  ∧ NewLocalStorage ["static"; "images"] fs' = (fs', Ok demo.store).
Proof.
  intros fs'.
  destruct (NewLocalStorage_prepares_the_store ["static"; "images"]
              demo.empty) as (_ & _ & _ & Hiff & _ & Hfree).
  assert (∀ d q : list string,
            d ∈ layout ["static"; "images"] → q ∈ OS.ancestors d →
            files demo.empty !! q = None) as H
    by (intros d q _ _; apply lookup_empty).
  split; [by apply Hiff|].
  destruct (Hfree H) as (_ & HL & _ & Hagain). by split.
Defined.

(** ** Sweeping twice *)

Section Twice.

Context (s : LocalStorage).
Implicit Types (fs : FS) (id : string) (q : path).

Lemma expired_mono now now' info :
  (now' ≤ now)%Z → expired now' info = true → expired now info = true.
Proof using Type.
  intros Hle. unfold expired, Before.
  intros [H1 H2%Z.ltb_lt]%andb_true_iff. rewrite H1. cbn [andb].
  apply Z.ltb_lt. lia.
Qed.

Lemma sweep_nothing now entries fs c :
  (∀ e, e ∈ entries → expired_entry s now fs e = false) →
  foldl (CleanExpired_step s now) (fs, c) entries = (fs, c).
Proof using Type.
  induction entries as [|e entries IH]; intros H; cbn [foldl]; [done|].
  rewrite (CleanExpired_step_false s now fs c e)
    by (apply H, list_elem_of_here).
  apply IH. intros e' He'. by apply H, list_elem_of_further.
Qed.

Lemma purge_removes_record id o fs :
  metadataPath s id ∉ readonly fs →
  files (purge s id o fs) !! metadataPath s id = None.
Proof using Type.
  intros Hro. unfold purge, DeleteInfo.
  set (fs3 := (Delete s id AVIF o _).1).
  assert (readonly fs3 = readonly fs) as Hr.
  { unfold fs3.
    destruct (Delete_shrinks s id AVIF o
                (Delete s id WebP o (Delete s id Original o fs).1).1)
      as (_ & -> & _).
    destruct (Delete_shrinks s id WebP o (Delete s id Original o fs).1)
      as (_ & -> & _).
    by destruct (Delete_shrinks s id Original o fs) as (_ & -> & _). }
  pose proof (Remove_gone (metadataPath s id) fs3) as Hgone.
  rewrite Hr in Hgone. specialize (Hgone Hro).
  destruct (OS.Remove (metadataPath s id) fs3) as [fs4 [e|]];
    [destruct (OS.IsNotExist e)|]; done.
Qed.

(** The sweep removes the record of every expired entry it visits, when
    the file system does not refuse it. *)
Lemma sweep_removes_record now id (doc : json.Object) entries fs c :
  OS.mkDirEntry (id +:+ ".json") false ∈ entries →
  metadataPath s id ∉ readonly fs →
  expired now (json.Unmarshal doc) = true →
  files (foldl (CleanExpired_step s now) (fs, c) entries).1
    !! metadataPath s id
  ≠ Some (Json doc).
Proof using Type.
  intros He Hro Hexp. revert fs c Hro He.
  induction entries as [|e0 entries IH]; intros fs c Hro He Hfin;
    [by apply elem_of_nil in He|].
  cbn [foldl] in Hfin.
  destruct (CleanExpired_step s now (fs, c) e0) as [fs1 c1] eqn:Hstep.
  assert (shrinks (λ _, True) fs fs1) as Hsh1.
  { pose proof (sweep_shrinks s now [e0] fs c) as H.
    cbn [foldl] in H. by rewrite Hstep in H. }
  assert (files fs1 !! metadataPath s id = Some (Json doc)) as Hm1.
  { destruct (sweep_shrinks s now entries fs1 c1) as (_ & _ & H).
    destruct (H (metadataPath s id)) as [<-|[_ Hn]]; [done|].
    by rewrite Hn in Hfin. }
  assert (files fs !! metadataPath s id = Some (Json doc)) as Hm.
  { destruct Hsh1 as (_ & _ & H).
    destruct (H (metadataPath s id)) as [<-|[_ Hn]]; [done|].
    by rewrite Hn in Hm1. }
  apply elem_of_cons in He as [<-|He].
  - assert (expired_entry s now fs (OS.mkDirEntry (id +:+ ".json") false)
            = true) as E.
    { unfold expired_entry. cbn [OS.IsDir OS.Name negb andb].
      rewrite HasSuffix_app, TrimSuffix_app. cbn [andb].
      by rewrite (GetInfo_doc s id fs doc Hm). }
    destruct (CleanExpired_step_true s now fs c _ E)
      as (info' & _ & _ & HG & _ & Hp).
    cbn [OS.Name] in HG, Hp. rewrite TrimSuffix_app in HG, Hp.
    rewrite Hp in Hstep. injection Hstep as <- _.
    by rewrite purge_removes_record in Hm1.
  - apply (IH fs1 c1); [|done|done].
    destruct Hsh1 as (_ & -> & _). done.
Qed.

End Twice.

(** X23. A sweep leaves nothing for a second one.  When no metadata file is
    protected against removal and CleanExpired succeeded, a further
    CleanExpired at the same or an earlier clock reading counts 0 and
    leaves the store as it is. *)
Theorem CleanExpired_twice
    (s : LocalStorage) (now now' : Time) (fs : FS) (n : nat) :
  (∀ id, metadataPath s id ∉ readonly fs) →
  (now' ≤ now)%Z →
  (CleanExpired s now fs).2 = Ok n →
  CleanExpired s now' (CleanExpired s now fs).1
  = ((CleanExpired s now fs).1, Ok 0).
Proof.
  intros Hro Hle Hok.
  destruct (ReadDir (basePath s ++ ["metadata"]) fs) as [entries|] eqn:HR;
    [|by rewrite (CleanExpired_None s now fs HR) in Hok].
  rewrite (CleanExpired_Some s now fs entries HR). cbn [fst].
  set (fs' := (foldl (CleanExpired_step s now) (fs, 0) entries).1).
  pose proof (sweep_shrinks s now entries fs 0) as (Hd & _ & Hsh).
  fold fs' in Hd, Hsh.
  assert (basePath s ++ ["metadata"] ∈ dirs fs') as Hdir.
  { rewrite Hd. unfold ReadDir in HR.
    by destruct (decide (basePath s ++ ["metadata"] ∈ dirs fs));
      [|rewrite bool_decide_false in HR]. }
  destruct (ReadDir_is_Some _ _ Hdir) as [entries' HR'].
  rewrite (CleanExpired_Some s now' fs' entries' HR').
  rewrite sweep_nothing; [done|]. intros e _.
  destruct (expired_entry s now' fs' e) eqn:E; [exfalso|done].
  destruct (CleanExpired_step_true s now' fs' 0 e E)
    as (info & Hfile & Hname & HG & Hexp & _).
  set (id := Str.TrimSuffix (OS.Name e) ".json") in *.
  apply GetInfo_Ok in HG as (doc & HG & <-).
  assert (files fs !! metadataPath s id = Some (Json doc)) as Hm.
  { destruct (Hsh (metadataPath s id)) as [<-|[_ Hn]]; [done|].
    by rewrite Hn in HG. }
  apply (sweep_removes_record s now id doc entries fs 0);
    [| |by eapply expired_mono|done].
  - apply (ReadDir_elem_of (basePath s ++ ["metadata"]) fs entries); [done|].
    unfold metadataPath in Hm.
    replace (basePath s ++ ["metadata"; id +:+ ".json"])
      with ((basePath s ++ ["metadata"]) ++ [id +:+ ".json"]) in Hm
      by (by rewrite <- (assoc_L (++))).
    by rewrite Hm.
  - apply Hro.
Qed.

Lemma CleanExpired_twice_witness :
  CleanExpired demo.store (demo.t 9000)
    (CleanExpired demo.store (demo.t 9000) demo.two_items).1
  = ((CleanExpired demo.store (demo.t 9000) demo.two_items).1, Ok 0).
Proof.
  apply (CleanExpired_twice demo.store (demo.t 9000) (demo.t 9000)
           demo.two_items 1).
  - assert (readonly demo.two_items = ∅) as Hro by (vm_compute; reflexivity).
    intros id. rewrite Hro. apply not_elem_of_empty.
  - reflexivity.
  - vm_compute. reflexivity.
Defined.

(** ** The tag filter *)

Section Tags.

Context (store : LocalStorage).

Lemma has_tag_spec (tag : string) (img : ImageInfo) :
  has_tag tag img = true ↔ tag ∈ Tags img.
Proof using Type.
  unfold has_tag. rewrite existsb_exists. split.
  - intros (x & Hx & ->%String.eqb_eq). by apply list_elem_of_In.
  - intros H. exists tag. split; [by apply list_elem_of_In|].
    apply String.eqb_refl.
Qed.

Lemma filter_tag_spec (tag : string) (images : list ImageInfo) :
  filter_tag tag images
  = filter (λ img, tag = "" ∨ tag ∈ Tags img) images.
Proof using Type.
  unfold filter_tag. case_bool_decide as Ht.
  - apply list_filter_iff. intros img. rewrite has_tag_spec.
    split; [by right | by intros [?|?]].
  - destruct (decide (tag = "")) as [->|Hne]; [|by destruct Ht].
    induction images as [|img images IH]; [done|].
    rewrite filter_cons_True by (by left). by rewrite <- IH.
Qed.

Lemma slice_elem_of {A} (l page : list A) (low high : Z) (x : A) :
  slice l low high = Some page → x ∈ page → x ∈ l.
Proof using Type.
  unfold slice. destruct (_ && _); [|done]. intros [= <-] Hx.
  eapply elem_of_sublist; [exact Hx|].
  etrans; [apply sublist_take | apply sublist_drop].
Qed.

End Tags.

(** X24. ListImagesHandler filters by tag.  Whenever it answers with a
    body, the status is 200, the total is the number of the listed images
    that carry the tag (of all listed images when the tag is empty), and
    every item of the data is the response of a listed image that carries
    the tag. *)
Theorem ListImagesHandler_filters_by_tag
    (store : LocalStorage) (page limit : Z) (tag : string) (fs : FS)
    (images : list ImageInfo) (status : Z) (r : ListImagesResponse) :
  List store fs = Ok images →
  ListImagesHandler store page limit tag fs = Responds status (Some r) →
  status = 200%Z
  ∧ l_Total r
    = Z.of_nat
        (length (filter (λ img, tag = "" ∨ tag ∈ Tags img) images))
  ∧ ∀ x, x ∈ l_Data r →
      ∃ img, img ∈ images ∧ (tag = "" ∨ tag ∈ Tags img)
             ∧ x = toResponse store img.
Proof.
  intros HL. rewrite (ListImagesHandler_unfold store page limit tag fs images HL).
  cbn zeta. rewrite <- filter_tag_spec.
  destruct (_ <? _)%Z.
  - destruct (slice _ _ _) as [pageImages|] eqn:Hs; [|done].
    intros [= <- <-]. cbn [l_Total l_Data]. split; [done|]. split; [done|].
    intros x (img & -> & Himg)%list_elem_of_fmap.
    apply (slice_elem_of _ _ _ _ _ Hs) in Himg.
    rewrite filter_tag_spec in Himg.
    apply list_elem_of_filter in Himg as [Ht Himg]. by exists img.
  - intros [= <- <-]. cbn [l_Total l_Data]. split; [done|]. split; [done|].
    by intros x Hx%elem_of_nil.
Qed.

Lemma ListImagesHandler_filters_by_tag_witness :
  ∃ images r,
    List demo.store demo.tagged = Ok images
    ∧ ListImagesHandler demo.store 1 10 "cat" demo.tagged
      = Responds 200 (Some r)
    ∧ length images = 2 ∧ l_Total r = 1%Z ∧ length (l_Data r) = 1
    ∧ l_Total r
      = Z.of_nat
          (length (filter (λ img, "cat" = "" ∨ "cat" ∈ Tags img) images))
    ∧ ∀ x, x ∈ l_Data r →
        ∃ img, img ∈ images ∧ ("cat" = "" ∨ "cat" ∈ Tags img)
               ∧ x = toResponse demo.store img.
Proof.
  destruct (List demo.store demo.tagged) as [images|e] eqn:HL;
    [|exfalso; vm_compute in HL; discriminate HL].
  destruct (ListImagesHandler demo.store 1 10 "cat" demo.tagged)
    as [status [r|]|] eqn:HH;
    [|exfalso; vm_compute in HH; discriminate HH
     |exfalso; vm_compute in HH; discriminate HH].
  destruct (ListImagesHandler_filters_by_tag demo.store 1 10 "cat"
              demo.tagged images status r HL HH) as (-> & Ht & Hd).
  assert (length images = 2) as H2.
  { pose proof HL as HL'. vm_compute in HL'. injection HL' as <-.
    reflexivity. }
  assert (l_Total r = 1%Z ∧ length (l_Data r) = 1) as [H1 H1'].
  { pose proof HH as HH'. vm_compute in HH'. injection HH' as <-.
    split; reflexivity. }
  exists images, r. split; [reflexivity|]. split; [reflexivity|].
  split; [exact H2|]. split; [exact H1|]. split; [exact H1'|]. by split.
Defined.

(** ** Reading an upload back *)

Section Reading.

Lemma pretty_N_go_length (x : N) (s : string) :
  String.length s ≤ String.length (pretty_N_go x s).
Proof using Type.
  revert s. induction (N.lt_wf_0 x) as [x _ IH]; intros s.
  destruct (decide (x = 0)%N) as [->|Hx]; [done|].
  rewrite pretty_N_go_step by lia.
  etrans; [|apply IH, N.div_lt; lia]. cbn [String.length]. lia.
Qed.

Lemma pretty_N_nonempty (x : N) : pretty x ≠ "".
Proof using Type.
  unfold pretty, pretty_N. case_decide as Hx; [done|].
  rewrite pretty_N_go_step by lia. intros H.
  pose proof (pretty_N_go_length (x `div` 10)
                (String (pretty_N_char (x `mod` 10)) "")) as Hl.
  rewrite H in Hl. cbn [String.length] in Hl. lia.
Qed.

(** A generated id is not empty. *)
Lemma generateID_nonempty (now : Time) : generateID now ≠ "".
Proof using Type.
  unfold generateID. destruct (UnixNano now) as [|p|p]; [done|..].
  - apply (pretty_N_nonempty (Npos p)).
  - change ("-" +:+ pretty (Npos p) ≠ ""). by rewrite str_app_cons.
Qed.

End Reading.

(** X25. GetImageHandler reads an upload back.  After UploadHandler stored
    a file whose image the converter described as landscape or portrait,
    GetImageHandler answers 200 for the id of the upload, and the response
    carries the URL that the upload returned, the size of the uploaded
    file, its name as encoding/json reads it back (bytes that are not part
    of well-formed UTF-8 replaced by U+FFFD), no tags and no expiry; its
    thumbnail URL is the WebP URL of the same id.  For the empty id the
    answer is 400 and for an id without a readable record 404. *)
Theorem GetImageHandler_reads_the_upload
    (s : LocalStorage) (file : FileHeader) (original data : list byte)
    (info : converter.ImageInfo) (t1 t2 t3 : Time) (fs fs' : FS)
    (url : string) :
  let o := converter.Orientation info in
  let id := generateID t1 in
  o = Landscape ∨ o = Portrait →
  UploadHandler_save s file original data info t1 t2 t3 fs = (fs', Ok url) →
  (∃ r, GetImageHandler s id fs' = (200%Z, Some r)
        ∧ r_ID r = id ∧ r_URL r = url
        ∧ r_ThumbnailURL r = GetURL s id WebP o
        ∧ r_Filename r = json.utf8 (fh_Filename file)
        ∧ r_Size r = fh_Size file
        ∧ r_Orientation r = o ∧ r_Tags r = [] ∧ r_HasExpiry r = false)
  ∧ GetImageHandler s "" fs' = (400%Z, None)
  ∧ ∀ id', id' ≠ "" → (∀ img, GetInfo s id' fs' ≠ Ok img) →
           GetImageHandler s id' fs' = (404%Z, None).
Proof.
  intros o id Ho. unfold UploadHandler_save. fold o.
  destruct (Save s t1 _ _ Original o fs) as [fs1 [id1|e]] eqn:S1; [|done].
  destruct (Save s t2 _ _ WebP o fs1) as [fs2 [id2|e]] eqn:S2; [|done].
  destruct (SaveInfo s _ fs2) as [fs3 [e|]] eqn:S3; [done|].
  intros [= <- <-].
  apply Save_Ok in S1 as (-> & _). fold id in S3 |- *.
  pose proof (SaveInfo_GetInfo _ _ _ _ S3) as HG. cbn [ID] in HG.
  assert (json.utf8 o = o) as Hou by (by destruct Ho as [->| ->]).
  split; [|split].
  - eexists. split.
    + unfold GetImageHandler.
      rewrite bool_decide_false by apply generateID_nonempty.
      rewrite HG. reflexivity.
    + unfold json.decoded.
      cbn [toResponse r_ID r_URL r_ThumbnailURL r_Filename r_Size
             r_Orientation r_Tags r_HasExpiry ID Filename Size Orientation
             Tags HasExpiry fmap list_fmap].
      subst id. rewrite Hou, (utf8_generateID t1). repeat split.
  - unfold GetImageHandler. by rewrite bool_decide_true.
  - intros id' Hid Hno. unfold GetImageHandler.
    rewrite bool_decide_false by done.
    destruct (GetInfo s id' fs3) as [img|e]; [by destruct (Hno img)|done].
Qed.

Lemma GetImageHandler_reads_the_upload_witness :
  let s := demo.store in
  let id := generateID (demo.t 0) in
  let file := mkFileHeader (String (ascii_of_N 255) ".jpg") 3 in
  let fs' := (UploadHandler_save s file [x01; x02; x03] [x09] demo.info
                (demo.t 0) (demo.t 1000) (demo.t 2000) demo.empty).1 in
  (∃ r, GetImageHandler s id fs' = (200%Z, Some r)
        ∧ r_ID r = id
        ∧ r_URL r = GetURL s id Original "landscape"
        ∧ r_ThumbnailURL r = GetURL s id WebP "landscape"
        ∧ r_Filename r = json.replacement +:+ ".jpg" ∧ r_Size r = 3%Z
        ∧ r_Orientation r = "landscape" ∧ r_Tags r = []
        ∧ r_HasExpiry r = false)
  ∧ GetImageHandler s "" fs' = (400%Z, None)
  ∧ ∀ id', id' ≠ "" → (∀ img, GetInfo s id' fs' ≠ Ok img) →
           GetImageHandler s id' fs' = (404%Z, None).
Proof.
  intros s id file fs'.
  apply (GetImageHandler_reads_the_upload s file [x01; x02; x03] [x09]
           demo.info (demo.t 0) (demo.t 1000) (demo.t 2000) demo.empty
           fs' (GetURL s id Original "landscape")).
  - by left.
  - apply pair_snd_eq. vm_compute. reflexivity.
Defined.
